(** * Local influencers in a social graph: clustering, filtering, ranking

    A shallow embedding of the notebook [source_code.ipynb]: the Markov
    parameter search ([mc_train], [markov_grand_loop]), the spectral
    pipeline ([spectral], [spectral_2], [spectral_post_process],
    [balance_score_clusters], [spectral_grand_loop]), the community filter
    ([separate_communities]) and the centrality rankers
    ([degree_centrality], [close_centrality], [eigencentrality],
    [create_list_of_local_influencers]).

    Conventions.
    - A Python exception is [None] in the option monad.
    - Python floats are idealised as rationals ([Q]); a standard deviation
      is kept as a symbolic square root ([Sqrt]).
    - Calls into third-party numerical libraries (markov_clustering,
      numpy, scikit-learn, the eigenvector routine of networkx) are
      parameters of the sections that use them; numpy's global random
      state, which the unseeded [KMeans] draws from, is passed explicitly.
    - [print] has no effect on any returned value and is left out; of the
      plotting calls only [plt.plot] reads data, and it is kept as the
      list of its calls. *)

From Stdlib Require Import List ZArith QArith Lia Lqa Bool Permutation Sorted Finite.
From ExtLib Require Import Structures.Monad Data.Monads.OptionMonad.
Import ListNotations MonadNotation.
Local Open Scope monad_scope.
Local Open Scope Z_scope.

Set Implicit Arguments.

(** ** Python primitives *)

Module Py.

(** [range(a, b)]: the integers [a, a+1, ..., b-1]; empty when [b <= a]. *)
Definition range (a b : Z) : list Z :=
  map (fun i => a + Z.of_nat i) (seq 0 (Z.to_nat (b - a))).

(** [for x in xs: s = body(s, x)], where the body may raise. *)
Fixpoint for_each {A S : Type} (xs : list A) (body : S -> A -> option S)
    (s : S) : option S :=
  match xs with
  | [] => Some s
  | x :: xs' => s' <- body s x ;; for_each xs' body s'
  end.

(** [a < b] on floats (idealised). *)
Definition Qltb (a b : Q) : bool := negb (Qle_bool b a).

(** A [dict] with integer keys, in insertion order.  Assigning to a key
    that is present keeps its position and replaces its value. *)
Definition dict (V : Type) := list (Z * V).

Fixpoint dict_set {V} (d : dict V) (k : Z) (v : V) : dict V :=
  match d with
  | [] => [(k, v)]
  | (k', v') :: d' =>
      if k =? k' then (k, v) :: d' else (k', v') :: dict_set d' k v
  end.

(** [dict(pairs)] *)
Definition dict_of {V} (pairs : list (Z * V)) : dict V :=
  fold_left (fun d kv => dict_set d (fst kv) (snd kv)) pairs [].

(** [d.get(k)] *)
Fixpoint dict_get {V} (d : dict V) (k : Z) : option V :=
  match d with
  | [] => None
  | (k', v) :: d' => if k =? k' then Some v else dict_get d' k
  end.

(** Iterating a dict yields its keys; [d.items()] is the list itself. *)
Definition keys {V} (d : dict V) : list Z := map fst d.

(** [zip(xs, ys)] stops at the shorter argument. *)
Definition zip {A B} (xs : list A) (ys : list B) : list (A * B) := combine xs ys.

(** Position addressed by [lst[idx]] in a list of length [len]: negative
    indices count from the end, anything else out of range is an
    [IndexError]. *)
Definition index_pos (len : nat) (idx : Z) : option nat :=
  if (0 <=? idx) && (idx <? Z.of_nat len) then Some (Z.to_nat idx)
  else if (- Z.of_nat len <=? idx) && (idx <? 0)
       then Some (Z.to_nat (idx + Z.of_nat len))
       else None.

(** [lst[idx]] *)
Definition getitem {A} (lst : list A) (idx : Z) : option A :=
  p <- index_pos (length lst) idx ;; nth_error lst p.

Fixpoint update_at {A} (lst : list A) (p : nat) (f : A -> A) : list A :=
  match lst, p with
  | [], _ => []
  | x :: r, O => f x :: r
  | x :: r, S p' => x :: update_at r p' f
  end.

(** [lsts[idx].append(x)] on a list of lists. *)
Definition append_at {A} (lsts : list (list A)) (idx : Z) (x : A)
    : option (list (list A)) :=
  p <- index_pos (length lsts) idx ;;
  ret (update_at lsts p (fun c => c ++ [x])).

(** [sorted(items, key = lambda kv: kv[1])]: Python's sort is stable, so
    the result is the unique stable arrangement by ascending score; it
    is computed here by insertion from the right. *)
Fixpoint insert_by_score {K} (x : K * Q) (l : list (K * Q)) : list (K * Q) :=
  match l with
  | [] => [x]
  | y :: l' =>
      if Qle_bool (snd x) (snd y) then x :: l else y :: insert_by_score x l'
  end.

Definition sorted_by_score {K} (l : list (K * Q)) : list (K * Q) :=
  fold_right insert_by_score [] l.

End Py.

(** ** Markov clustering: the parameter search *)

Module Markov.

(** The markov_clustering package, as far as the notebook uses it. *)
Record MCL : Type := {
  matrix : Type;
  mcl_result : Type;
  clusters : Type;
  (** [mc.run_mcl(mat, expansion=exp, inflation=infl)] *)
  run_mcl : matrix -> Z -> Q -> option mcl_result;
  (** [mc.get_clusters(res)] *)
  get_clusters : mcl_result -> option clusters;
  (** [mc.modularity(res, clu)] *)
  modularity : mcl_result -> clusters -> option Q
}.

Section Search.

Variable mc : MCL.

Definition mc_loop (mat : matrix mc) (exp : Z) (infl : Q) : option Q :=
  res <- run_mcl mc mat exp infl ;;
  clu <- get_clusters mc res ;;
  modularity mc res clu.

Definition mc_loop_final (mat : matrix mc) (exp : Z) (infl : Q)
    : option (clusters mc) :=
  res <- run_mcl mc mat exp infl ;;
  get_clusters mc res.

(** [i / 10] *)
Definition tenth (i : Z) : Q := i # 10.

(** Loop state of [mc_train]: [(max_infl, max_mod, mod_series)]. *)
Definition mc_train_step (mat : matrix mc) (expand : Z)
    (st : Q * Q * list Q) (inflation : Q) : option (Q * Q * list Q) :=
  let '(max_infl, max_mod, mod_series) := st in
  q <- mc_loop mat expand inflation ;;
  let mod_series := mod_series ++ [q] in
  if Py.Qltb max_mod q
  then ret (inflation, q, mod_series)
  else ret (max_infl, max_mod, mod_series).

Definition mc_train (mat : matrix mc) (expand start end_ : Z)
    : option (Q * Q * list Q) :=
  Py.for_each (map tenth (Py.range start end_))
              (mc_train_step mat expand) (0%Q, 0%Q, []).

(** The locals of [markov_grand_loop] when its loop ends. *)
Record search_state : Type := {
  max_expand : Z;
  grand_max_infl : Q;
  grand_max_modularity : Q;
  mod_ser_by_expansion : list (list Q)
}.

Definition grand_step (matr : matrix mc) (infl_start infl_end : Z)
    (st : search_state) (i : Z) : option search_state :=
  '(curr_max_infl, curr_max_mod, mod_ser) <- mc_train matr i infl_start infl_end ;;
  let series := mod_ser_by_expansion st ++ [mod_ser] in
  if Py.Qltb (grand_max_modularity st) curr_max_mod
  then ret {| max_expand := i;
              grand_max_infl := curr_max_infl;
              grand_max_modularity := curr_max_mod;
              mod_ser_by_expansion := series |}
  else ret {| max_expand := max_expand st;
              grand_max_infl := grand_max_infl st;
              grand_max_modularity := grand_max_modularity st;
              mod_ser_by_expansion := series |}.

(** The loop of [markov_grand_loop], up to the call of [draw_graph]. *)
Definition markov_search (matr : matrix mc)
    (expand_start expand_end infl_start infl_end : Z) : option search_state :=
  Py.for_each (Py.range expand_start (expand_end + 1))
              (grand_step matr infl_start infl_end)
              {| max_expand := 0; grand_max_infl := 0%Q;
                 grand_max_modularity := 0%Q; mod_ser_by_expansion := [] |}.

Definition markov_grand_loop (matr : matrix mc)
    (expand_start expand_end infl_start infl_end : Z) : option (clusters mc) :=
  st <- markov_search matr expand_start expand_end infl_start infl_end ;;
  mc_loop_final matr (max_expand st) (grand_max_infl st).

End Search.

(** One call [plt.plot(x, y, label = f'expansion factor = {c}', ...)]:
    its two series and the expansion factor named in its label. *)
Record plot_call : Type := {
  plot_x : list Q;
  plot_y : list Q;
  plot_label : Z
}.

(** [plt.plot(x, y, ...)] on two series: matplotlib raises [ValueError]
    unless they have the same length. *)
Definition plot (x y : list Q) (c : Z) : option plot_call :=
  if (length x =? length y)%nat
  then Some {| plot_x := x; plot_y := y; plot_label := c |}
  else None.

(** [draw_graph], as the list of the [plt.plot] calls it makes; the axis
    labels, the legend and [plt.show()] follow the loop and read none of
    the arguments.  Loop state: [(i, calls so far)]. *)
Definition draw_graph (inflat_ser : list Q) (mod_ser_exp : list (list Q))
    (exp_start exp_end : Z) : option (list plot_call) :=
  '(_, plots) <-
     Py.for_each (Py.range exp_start (exp_end + 1))
       (fun (st : Z * list plot_call) c =>
          let '(i, plots) := st in
          y <- Py.getitem mod_ser_exp i ;;
          p <- plot inflat_ser y c ;;
          ret (i + 1, plots ++ [p]))
       (0, []) ;;
  ret plots.

(** [final_clean]: every cluster (a tuple of node indices) as a list. *)
Definition final_clean (clust : list (list Z)) : option (list (list Z)) :=
  Py.for_each (Py.range 0 (Z.of_nat (length clust)))
    (fun cl i => lis <- Py.getitem clust i ;; ret (cl ++ [lis]))
    [].

Section FullLoop.

Variable mc : MCL.

(** [markov_grand_loop] with its call of [draw_graph] between the loop
    and the final run. *)
Definition markov_grand_loop_with_plot (matr : matrix mc)
    (expand_start expand_end infl_start infl_end : Z) : option (clusters mc) :=
  st <- markov_search mc matr expand_start expand_end infl_start infl_end ;;
  let inflation_series := map tenth (Py.range infl_start infl_end) in
  _ <- draw_graph inflation_series (mod_ser_by_expansion st)
                  expand_start expand_end ;;
  mc_loop_final mc matr (max_expand st) (grand_max_infl st).

End FullLoop.

End Markov.

(** ** Graphs (networkx) *)

Module nx.

(** An undirected graph: its nodes in iteration order and its edges. *)
Record Graph : Type := {
  nodes : list Z;
  edges : list (Z * Z)
}.

(** [G.number_of_nodes()], [len(G)] *)
Definition number_of_nodes (G : Graph) : Z := Z.of_nat (length (nodes G)).

Definition mem (v : Z) (l : list Z) : bool := existsb (Z.eqb v) l.

(** Modelled from the spec: [Graph.subgraph] belongs to networkx and is
    not part of the notebook.  Sections 3 and 4.1: the graph restricted to
    the given nodes and the edges between them, retained nodes in their
    original relative order.  Identifiers that are not nodes of the graph
    select nothing. *)
Definition subgraph (G : Graph) (nbunch : list Z) : Graph :=
  let keep v := mem v nbunch && mem v (nodes G) in
  {| nodes := filter keep (nodes G);
     edges := filter (fun e => keep (fst e) && keep (snd e)) (edges G) |}.

(** Number of edge ends at [v] (a self-loop counts twice). *)
Definition degree (G : Graph) (v : Z) : Z :=
  fold_right (fun e d => (if fst e =? v then 1 else 0)
                         + (if snd e =? v then 1 else 0) + d) 0 (edges G).

(** Modelled from the spec: [nx.degree_centrality] belongs to networkx.
    Section 4.7: the fraction of possible edges incident to each node,
    that is degree / (n - 1); with at most one node there is no possible
    edge and the library gives every node the score 1. *)
Definition degree_centrality (G : Graph) : Py.dict Q :=
  if number_of_nodes G <=? 1
  then map (fun n => (n, 1%Q)) (nodes G)
  else map (fun n => (n, Qred (inject_Z (degree G n)
                               / inject_Z (number_of_nodes G - 1))))
           (nodes G).

Definition adjacent (G : Graph) (u v : Z) : bool :=
  existsb (fun e => (fst e =? u) && (snd e =? v) || (fst e =? v) && (snd e =? u))
          (edges G).

(** Breadth-first levels from [frontier]: level [d] holds the nodes at
    distance [d].  Every non-empty level consumes a node, so [fuel] equal
    to the number of nodes is enough. *)
Fixpoint bfs_levels (G : Graph) (fuel : nat) (visited frontier : list Z)
    : list (list Z) :=
  match fuel with
  | O => []
  | S fuel' =>
      match frontier with
      | [] => []
      | _ :: _ =>
          let next :=
            filter (fun v => negb (mem v visited)
                             && existsb (fun u => adjacent G u v) frontier)
                   (nodes G) in
          frontier :: bfs_levels G fuel' (visited ++ next) next
      end
  end.

(** Sum of the distances in a list of levels starting at distance [d]. *)
Fixpoint total_distance (d : Z) (levels : list (list Z)) : Z :=
  match levels with
  | [] => 0
  | l :: r => d * Z.of_nat (length l) + total_distance (d + 1) r
  end.

(** Modelled from the spec: [nx.closeness_centrality] belongs to networkx.
    Section 4.7: the inverse of the average shortest-path distance from a
    node to all other reachable nodes, that is (number of other reachable
    nodes) / (sum of their distances); a node that reaches no other node
    has no average distance and gets 0.  The quotient is exact: scores
    that differ only by floating-point rounding are equal here. *)
Definition closeness_of (G : Graph) (n : Z) : Q :=
  let levels := bfs_levels G (length (nodes G)) [n] [n] in
  let totsp := total_distance 0 levels in
  let reached := Z.of_nat (length (concat levels)) in
  if 0 <? totsp
  then Qred (inject_Z (reached - 1) / inject_Z totsp)
  else 0%Q.

Definition closeness_centrality (G : Graph) : Py.dict Q :=
  map (fun n => (n, closeness_of G n)) (nodes G).

(** A directed graph; [nx.DiGraph(G)] mirrors every edge both ways. *)
Record DiGraph : Type := {
  dnodes : list Z;
  arcs : list (Z * Z)
}.

Definition DiGraph_of (G : Graph) : DiGraph :=
  {| dnodes := nodes G;
     arcs := flat_map (fun e => if fst e =? snd e then [e]
                                else [e; (snd e, fst e)]) (edges G) |}.

End nx.

(** ** Spectral clustering *)

Module Spectral.

Import nx.

(** numpy and scikit-learn, as far as the notebook uses them.  The
    notebook seeds neither [KMeans] nor [KMedoids]: both read numpy's
    global random state, of type [rng] here, and leave it in the state
    they return, so that two runs on the same data need not agree. *)
Record Backend : Type := {
  embedding : Type;
  rng : Type;
  (** [laplacian(G)], [np.linalg.eig], the two [np.argsort] reorderings and
      the slice [eigenvecs[:, 1:n]] *)
  spectral_embedding : Graph -> Z -> option embedding;
  (** [KMeans(n).fit(X).labels_.tolist()] *)
  KMeans : Z -> embedding -> rng -> option (list Z * rng);
  (** [KMedoids(n_clusters=n).fit(X).labels_.tolist()] *)
  KMedoids : Z -> embedding -> rng -> option (list Z * rng)
}.

(** A float known as the square root of a rational: [statistics.stdev]
    returns the root of an exactly computed variance.  Roots of
    non-negative rationals compare as their radicands do. *)
Inductive score : Type := Sqrt (radicand : Q).

Definition radicand (s : score) : Q := let 'Sqrt q := s in q.
Definition score_of_int (n : Z) : score := Sqrt (inject_Z (n * n)).
Definition score_ltb (a b : score) : bool := Py.Qltb (radicand a) (radicand b).
Definition score_eqb (a b : score) : bool := Qeq_bool (radicand a) (radicand b).

(** [statistics.stdev(data)]: the sample standard deviation; fewer than
    two data points raise [StatisticsError]. *)
Definition stdev (data : list Z) : option score :=
  let n := Z.of_nat (length data) in
  if n <? 2 then None
  else
    let mean := (inject_Z (fold_right Z.add 0%Z data) / inject_Z n)%Q in
    let ss := fold_right
                (fun (x : Z) (acc : Q) =>
                   ((inject_Z x - mean) * (inject_Z x - mean) + acc)%Q)
                0%Q data in
    Some (Sqrt (Qred (ss / inject_Z (n - 1)))).

(** [lst.index(x)]: the first position holding a value equal to [x];
    [ValueError] when there is none. *)
Fixpoint list_index (lst : list score) (x : score) : option nat :=
  match lst with
  | [] => None
  | y :: r => if score_eqb y x then Some O
              else p <- list_index r x ;; ret (S p)
  end.

Section Pipeline.

Variable np : Backend.

(** The clusterers take the random state and return it with their
    result. *)
Definition spectral (G : Graph) (n : Z) (s : rng np)
    : option (Py.dict Z * rng np) :=
  eigenvecs <- spectral_embedding np G n ;;
  '(labels, s) <- KMeans np n eigenvecs s ;;
  let node_no := Py.range 1 (number_of_nodes G + 1) in
  ret (Py.dict_of (Py.zip node_no labels), s).

Definition spectral_2 (G : Graph) (n : Z) (s : rng np)
    : option (Py.dict Z * rng np) :=
  eigenvecs <- spectral_embedding np G n ;;
  '(labels, s) <- KMedoids np n eigenvecs s ;;
  let node_no := Py.range 1 (number_of_nodes G + 1) in
  ret (Py.dict_of (Py.zip node_no labels), s).

Definition spectral_post_process (n : Z) (node_and_labl : Py.dict Z)
    : option (list (list Z)) :=
  let clusters := map (fun _ => []) (Py.range 0 n) in
  Py.for_each (Py.keys node_and_labl)
    (fun clusters j =>
       lab <- Py.dict_get node_and_labl j ;;
       Py.append_at clusters lab j)
    clusters.

Definition balance_score_clusters (clust : list (list Z)) : option score :=
  stdev (map (fun a => Z.of_nat (length a)) clust).

(** Loop state of [spectral_grand_loop]: [(k_m, dev_soc, min_std_dev)]
    and the random state. *)
Definition grand_step (graph : Graph)
    (st : list Z * list score * score * rng np) (r : Z)
    : option (list Z * list score * score * rng np) :=
  let '(k_m, dev_soc, min_std_dev, s) := st in
  let k_m := k_m ++ [r] in
  '(pre_cluster, s) <- spectral_2 graph r s ;;
  fin_cluster <- spectral_post_process r pre_cluster ;;
  dev_score <- balance_score_clusters fin_cluster ;;
  let min_std_dev :=
    if score_ltb dev_score min_std_dev then dev_score else min_std_dev in
  ret (k_m, dev_soc ++ [dev_score], min_std_dev, s).

Definition spectral_grand_loop (graph : Graph) (k_start k_end : Z) (s : rng np)
    : option (list (list Z) * rng np) :=
  '(k_m, dev_soc, min_std_dev, s) <-
     Py.for_each (Py.range k_start (k_end + 1)) (grand_step graph)
                 ([], [], score_of_int 99999, s) ;;
  i <- list_index dev_soc min_std_dev ;;
  best_k <- nth_error k_m i ;;
  '(best_pre_cluster, s) <- spectral graph best_k s ;;
  clusters <- spectral_post_process best_k best_pre_cluster ;;
  ret (clusters, s).

End Pipeline.

End Spectral.

(** ** Community filter *)

Module Community.

Import nx.

Definition separate_communities (Dgraph : Graph) (communities : list (list Z))
    : list Graph :=
  fold_left
    (fun comm i =>
       if (length i <=? 4)%nat then comm
       else comm ++ [subgraph Dgraph i])
    communities [].

End Community.

(** ** Centrality rankers *)

Module Ranking.

Import nx.

Section Rankers.

(** [nx.eigenvector_centrality]: a power iteration in floating point,
    which may fail to converge or reject its argument. *)
Variable eigenvector_centrality : DiGraph -> option (Py.dict Q).

(** [sorted_centr[0][0]] *)
Definition first_key (sorted_centr : list (Z * Q)) : option Z :=
  kv <- Py.getitem sorted_centr 0 ;; ret (fst kv).

Definition close_centrality (G : Graph) (lst : list Z) : option (list Z) :=
  let centr := closeness_centrality G in
  let sorted_centr := Py.sorted_by_score centr in
  let sorted_centr := rev sorted_centr in
  k <- first_key sorted_centr ;;
  ret (lst ++ [k]).

Definition eigencentrality (G : Graph) (lst : list Z) : option (list Z) :=
  let g2 := DiGraph_of G in
  ctr <- eigenvector_centrality g2 ;;
  let sorted_ctr := Py.sorted_by_score ctr in
  let sorted_ctr := rev sorted_ctr in
  k <- first_key sorted_ctr ;;
  ret (lst ++ [k]).

Definition degree_centrality (G : Graph) (lst : list Z) : option (list Z) :=
  let ctr := nx.degree_centrality G in
  let sorted_ctr := Py.sorted_by_score ctr in
  let sorted_ctr := rev sorted_ctr in
  k <- first_key sorted_ctr ;;
  ret (lst ++ [k]).

Definition create_list_of_local_influencers (communi : list Graph) (mode : Z)
    : option (list Z) :=
  Py.for_each communi
    (fun influencer_list com =>
       l1 <- (if mode =? 1 then degree_centrality com influencer_list
              else ret influencer_list) ;;
       l2 <- (if mode =? 2 then close_centrality com l1 else ret l1) ;;
       if mode =? 3 then eigencentrality com l2 else ret l2)
    [].

End Rankers.

End Ranking.

(** ** Reference notions used to state the results *)

Module Reference.

(** Keeping the best candidate seen so far: a later candidate replaces
    the current one only with a strictly larger score. *)
Definition better {L : Type} (b x : L * Q) : L * Q :=
  if Py.Qltb (snd b) (snd x) then x else b.

Definition scan {L : Type} (b : L * Q) (xs : list (L * Q)) : L * Q :=
  fold_left better xs b.

(** Renaming the label of a candidate. *)
Definition relabel {L1 L2 : Type} (phi : L1 -> L2) (x : L1 * Q) : L2 * Q :=
  (phi (fst x), snd x).

(** The search state of [markov_grand_loop] that holds the candidate
    [(expansion, inflation, modularity)] and the series [ser]. *)
Definition state_of (g : Z * Q * Q) (ser : list (list Q)) : Markov.search_state :=
  {| Markov.max_expand := fst (fst g);
     Markov.grand_max_infl := snd (fst g);
     Markov.grand_max_modularity := snd g;
     Markov.mod_ser_by_expansion := ser |}.

(** The trials of the expansions [es] as the code labels them, in
    iteration order, when the trial at [(e, i / 10)] has modularity
    [modq e i]. *)
Definition candidates (modq : Z -> Z -> Q) (infl_start infl_end : Z)
    (es : list Z) : list (Z * Q * Q) :=
  flat_map (fun e => map (fun i => ((e, Markov.tenth i), modq e i))
                         (Py.range infl_start infl_end)) es.

(** The modularity series of a sweep, one row per expansion. *)
Definition series (modq : Z -> Z -> Q)
    (expand_start expand_end infl_start infl_end : Z) : list (list Q) :=
  map (fun e => map (modq e) (Py.range infl_start infl_end))
      (Py.range expand_start (expand_end + 1)).

(** The code's label of a combination; [None] stands for the initial
    values of the search. *)
Definition code_label (p : option (Z * Z)) : Z * Q :=
  match p with Some (e, i) => (e, Markov.tenth i) | None => (0, 0%Q) end.

Definition scored (modq : Z -> Z -> Q) (p : Z * Z) : option (Z * Z) * Q :=
  (Some p, modq (fst p) (snd p)).

(** The (expansion, inflation index) combinations in the order in which
    [markov_grand_loop] visits them. *)
Definition grid (expand_start expand_end infl_start infl_end : Z) : list (Z * Z) :=
  flat_map (fun e => map (pair e) (Py.range infl_start infl_end))
           (Py.range expand_start (expand_end + 1)).

(** Iteration order on combinations: expansion first, then inflation. *)
Definition lex_lt (a b : Z * Z) : Prop :=
  fst a < fst b \/ (fst a = fst b /\ snd a < snd b).

(** [l] splits around its entry [(n, s)] so that nothing before it scores
    more and everything after it scores strictly less: [(n, s)] is the
    last entry of maximal score. *)
Definition last_maximum {K : Type} (l : list (K * Q)) (n : K) (s : Q) : Prop :=
  exists l1 l2, l = l1 ++ (n, s) :: l2
    /\ (forall x, In x l1 -> (snd x <= s)%Q)
    /\ (forall x, In x l2 -> (snd x < s)%Q).

(** A list of clusters partitions a node set: every node lies in exactly
    one cluster, once, and nothing else does. *)
Definition partitions (clusters : list (list Z)) (V : list Z) : Prop :=
  NoDup (concat clusters) /\ (forall v, In v (concat clusters) <-> In v V).

End Reference.

(** ** Concrete inputs *)

Module Examples.

(** A stand-in for the clustering package: a run records its two
    parameters, the clusters are that record, and the modularity is the
    given function of the parameters. *)
Definition mcl_with (score : Z -> Q -> Q) : Markov.MCL :=
  {| Markov.matrix := unit;
     Markov.mcl_result := Z * Q;
     Markov.clusters := Z * Q;
     Markov.run_mcl := fun _ e r => Some (e, r);
     Markov.get_clusters := fun res => Some res;
     Markov.modularity := fun res _ => Some (score (fst res) (snd res)) |}.

(** The clustering package with the checks it makes on its parameters:
    [run_mcl] asserts [expansion > 1] and [inflation > 1]. *)
Definition mcl_asserting (score : Z -> Q -> Q) : Markov.MCL :=
  {| Markov.matrix := unit;
     Markov.mcl_result := Z * Q;
     Markov.clusters := Z * Q;
     Markov.run_mcl := fun _ e r =>
       if (1 <? e) && Py.Qltb 1 r then Some (e, r) else None;
     Markov.get_clusters := fun res => Some res;
     Markov.modularity := fun res _ => Some (score (fst res) (snd res)) |}.

(** No trial reaches a positive modularity. *)
Definition poor_score (e : Z) (r : Q) : Q := (- (1 # 4))%Q.

(** Expansion 2 scores 1/2 and every other expansion scores 1, whatever
    the inflation: the maximum is reached several times. *)
Definition tied_score (e : Z) (r : Q) : Q := if e =? 2 then (1 # 2)%Q else 1%Q.

End Examples.

Module SpectralExamples.

Import nx.

(** A backend whose two grouping strategies return fixed labelings; the
    random state counts the runs of k-means. *)
Definition backend_with (kmeans_labels kmedoids_labels : list Z) : Spectral.Backend :=
  {| Spectral.embedding := unit;
     Spectral.rng := nat;
     Spectral.spectral_embedding := fun _ _ => Some tt;
     Spectral.KMeans := fun _ _ s => Some (kmeans_labels, S s);
     Spectral.KMedoids := fun _ _ s => Some (kmedoids_labels, s) |}.

(** The graph of the edge list (0,1), (1,2): building it through
    [dgl.graph] numbers the nodes from 0. *)
Definition path3 : Graph := {| nodes := [0; 1; 2]; edges := [(0, 1); (1, 2)] |}.

(** The cycle 1 - 2 - 3 - 4 - 1. *)
Definition cycle4 : Graph :=
  {| nodes := [1; 2; 3; 4]; edges := [(1, 2); (2, 3); (3, 4); (4, 1)] |}.

End SpectralExamples.

Module RankingReference.

Import nx.

(** The score mapping a centrality mode ranks: mode 1 is degree, mode 2
    closeness, mode 3 eigenvector centrality of the mirrored graph; any
    other mode ranks nothing. *)
Definition scores (eigenvector_centrality : DiGraph -> option (Py.dict Q))
    (mode : Z) (G : Graph) : option (Py.dict Q) :=
  if mode =? 1 then Some (degree_centrality G)
  else if mode =? 2 then Some (closeness_centrality G)
  else if mode =? 3 then eigenvector_centrality (DiGraph_of G)
  else None.

(** An eigenvector routine that never converges. *)
Definition no_eigenvector : DiGraph -> option (Py.dict Q) := fun _ => None.

(** An eigenvector routine that scores the node of a one-node graph 1
    and gives up on every other graph. *)
Definition single_eigenvector (g : DiGraph) : option (Py.dict Q) :=
  match dnodes g with
  | [v] => Some [(v, 1%Q)]
  | _ => None
  end.

(** The triangle on the nodes 1, 2, 3. *)
Definition triangle : Graph :=
  {| nodes := [1; 2; 3]; edges := [(1, 2); (1, 3); (2, 3)] |}.

(** A community without nodes, and one with the single node 7. *)
Definition empty_graph : Graph := {| nodes := []; edges := [] |}.
Definition single_node : Graph := {| nodes := [7]; edges := [] |}.

(** The path 0 - 1 - 2 - 3 - 4, and a five-element cluster of which only
    four elements are nodes of that path. *)
Definition path5 : Graph :=
  {| nodes := [0; 1; 2; 3; 4]; edges := [(0, 1); (1, 2); (2, 3); (3, 4)] |}.
Definition shifted_cluster : list Z := [1; 2; 3; 4; 5].

End RankingReference.

Module SpectralReference.

(** The keys of a labeling whose label addresses cluster [c] out of [n]:
    the label is [c], or it is [c - n], counted from the end. *)
Definition members (n : Z) (d : Py.dict Z) (c : Z) : list Z :=
  filter (fun j => match Py.dict_get d j with
                   | Some lab => (lab =? c) || (lab =? c - n)
                   | None => false
                   end)
         (Py.keys d).

(** Order on balance scores: roots compare as their radicands. *)
Definition score_le (a b : Spectral.score) : Prop :=
  (Spectral.radicand a <= Spectral.radicand b)%Q.
Definition score_lt (a b : Spectral.score) : Prop :=
  (Spectral.radicand a < Spectral.radicand b)%Q.

(** Every k of the range has a k-medoids trial that returns, with the
    balance score [dev k]; the trial of [k] starts in the random state
    [st k] and leaves the state [st (k + 1)]. *)
Definition trial_scores (np : Spectral.Backend) (G : nx.Graph)
    (dev : Z -> Spectral.score) (st : Z -> Spectral.rng np)
    (k_start k_end : Z) : Prop :=
  forall k, k_start <= k <= k_end ->
    exists pre fin, Spectral.spectral_2 np G k (st k) = Some (pre, st (k + 1))
                    /\ Spectral.spectral_post_process k pre = Some fin
                    /\ Spectral.balance_score_clusters fin = Some (dev k).

End SpectralReference.

Module MoreExamples.

(** A clustering package that rejects expansion 3 and otherwise gives
    every trial the modularity 1/2. *)
Definition mcl_rejecting_3 : Markov.MCL :=
  {| Markov.matrix := unit;
     Markov.mcl_result := Z * Q;
     Markov.clusters := Z * Q;
     Markov.run_mcl := fun _ e r => if e =? 3 then None else Some (e, r);
     Markov.get_clusters := fun res => Some res;
     Markov.modularity := fun _ _ => Some (1 # 2)%Q |}.

(** A star: the centre 0 joined to the leaves 1, ..., 5. *)
Definition star : nx.Graph :=
  {| nx.nodes := [0; 1; 2; 3; 4; 5];
     nx.edges := [(0, 1); (0, 2); (0, 3); (0, 4); (0, 5)] |}.

End MoreExamples.

(** * Results *)

Unset Implicit Arguments.

(** ** Python primitives *)

Section PyFacts.

Lemma range_In a b x : In x (Py.range a b) <-> a <= x < b.
Proof.
  unfold Py.range. rewrite in_map_iff. split.
  - intros [i [<- Hi]]. apply in_seq in Hi. lia.
  - intros H. exists (Z.to_nat (x - a)). split; [lia|].
    apply in_seq. lia.
Qed.

Lemma range_empty a b : b <= a -> Py.range a b = [].
Proof.
  intros H. unfold Py.range.
  replace (Z.to_nat (b - a)) with O by lia. reflexivity.
Qed.

Lemma range_cons a b : a < b -> Py.range a b = a :: Py.range (a + 1) b.
Proof.
  intros H. unfold Py.range.
  replace (Z.to_nat (b - a)) with (S (Z.to_nat (b - (a + 1)))) by lia.
  cbn [seq map]. f_equal; [lia|].
  rewrite <- seq_shift, map_map. apply map_ext. intros; lia.
Qed.

Lemma range_single a : Py.range a (a + 1) = [a].
Proof.
  rewrite range_cons by lia. now rewrite range_empty by lia.
Qed.

Lemma range_length a b : length (Py.range a b) = Z.to_nat (b - a).
Proof. unfold Py.range. now rewrite length_map, length_seq. Qed.

Lemma range_NoDup a b : NoDup (Py.range a b).
Proof.
  unfold Py.range. apply Finite.Injective_map_NoDup; [|apply seq_NoDup].
  intros x y. lia.
Qed.

Lemma Qltb_true a b : Py.Qltb a b = true <-> (a < b)%Q.
Proof.
  unfold Py.Qltb. rewrite negb_true_iff. split.
  - intros H. apply Qnot_le_lt. intros Hle.
    apply Qle_bool_iff in Hle. congruence.
  - intros H. destruct (Qle_bool b a) eqn:E; [|reflexivity].
    apply Qle_bool_iff in E. now apply Qlt_not_le in H.
Qed.

Lemma Qltb_false a b : Py.Qltb a b = false <-> (b <= a)%Q.
Proof.
  unfold Py.Qltb. rewrite negb_false_iff. apply Qle_bool_iff.
Qed.

Lemma for_each_app {A S} (xs ys : list A) (body : S -> A -> option S) s :
  Py.for_each (xs ++ ys) body s
  = match Py.for_each xs body s with
    | Some s' => Py.for_each ys body s'
    | None => None
    end.
Proof.
  revert s. induction xs as [|x xs IH]; intros s; cbn; [reflexivity|].
  destruct (body s x); cbn; [apply IH | reflexivity].
Qed.

End PyFacts.

(** ** Keeping the first maximum *)

Section ScanFacts.

Import Reference.

Context {L : Type}.
Implicit Types (b x : L * Q) (xs : list (L * Q)).

Lemma better_ge_l b x : (snd b <= snd (better b x))%Q.
Proof.
  unfold better. destruct (Py.Qltb (snd b) (snd x)) eqn:E.
  - apply Qltb_true in E. now apply Qlt_le_weak.
  - apply Qle_refl.
Qed.

Lemma better_ge_r b x : (snd x <= snd (better b x))%Q.
Proof.
  unfold better. destruct (Py.Qltb (snd b) (snd x)) eqn:E.
  - apply Qle_refl.
  - now apply Qltb_false in E.
Qed.

Lemma scan_ge xs : forall b, (snd b <= snd (scan b xs))%Q.
Proof.
  induction xs as [|x xs IH]; intros b; cbn.
  - apply Qle_refl.
  - eapply Qle_trans; [apply better_ge_l | apply IH].
Qed.

Lemma scan_keeps xs : forall b,
  (forall x, In x xs -> (snd x <= snd b)%Q) -> scan b xs = b.
Proof.
  induction xs as [|x xs IH]; intros b H; cbn; [reflexivity|].
  assert (E : better b x = b).
  { unfold better. destruct (Py.Qltb (snd b) (snd x)) eqn:E; [|reflexivity].
    apply Qltb_true in E. exfalso. eapply Qlt_not_le; [exact E|].
    apply H. now left. }
  rewrite E. apply IH. intros y Hy. apply H. now right.
Qed.

(** Either nothing beats the start value, or the result is the first
    entry of maximal score. *)
Lemma scan_spec xs : forall b,
  (scan b xs = b /\ forall x, In x xs -> (snd x <= snd b)%Q)
  \/ (exists l1 l2, xs = l1 ++ scan b xs :: l2
        /\ (snd b < snd (scan b xs))%Q
        /\ (forall x, In x l1 -> (snd x < snd (scan b xs))%Q)
        /\ (forall x, In x l2 -> (snd x <= snd (scan b xs))%Q)).
Proof.
  induction xs as [|x xs IH]; intros b.
  - left. split; [reflexivity | intros x []].
  - cbn [scan fold_left]. fold (scan (better b x) xs).
    destruct (IH (better b x)) as [[E H] | (l1 & l2 & E & Hb & H1 & H2)].
    + rewrite E. unfold better in *.
      destruct (Py.Qltb (snd b) (snd x)) eqn:C.
      * right. exists [], xs. apply Qltb_true in C.
        repeat split; auto. intros y [].
      * left. apply Qltb_false in C. split; [reflexivity|].
        intros y [<- | Hy]; auto.
    + right. exists (x :: l1), l2. repeat split; auto.
      * cbn. now rewrite <- E.
      * eapply Qle_lt_trans; [apply better_ge_l | exact Hb].
      * intros y [<- | Hy]; auto.
        eapply Qle_lt_trans; [apply better_ge_r | exact Hb].
Qed.

End ScanFacts.

Section ScanTransport.

Import Reference.

Context {L1 L2 : Type} (phi : L1 -> L2).

Lemma scan_map xs : forall b,
  scan (relabel phi b) (map (relabel phi) xs) = relabel phi (scan b xs).
Proof.
  induction xs as [|x xs IH]; intros b; cbn; [reflexivity|].
  fold (scan (better (relabel phi b) (relabel phi x)) (map (relabel phi) xs)).
  fold (scan (better b x) xs).
  rewrite <- IH. f_equal. unfold better, relabel; cbn.
  now destruct (Py.Qltb (snd b) (snd x)).
Qed.

(** Folding the result of a row, searched from a lower start value, into
    the running best is the same as continuing the search along the row. *)
Lemma scan_rebase xs : forall (b : L1 * Q) (g : L2 * Q),
  (snd b <= snd g)%Q ->
  (if Py.Qltb (snd g) (snd (scan b xs)) then relabel phi (scan b xs) else g)
  = scan g (map (relabel phi) xs).
Proof.
  induction xs as [|x xs IH]; intros b g Hbg.
  - cbn. destruct (Py.Qltb (snd g) (snd b)) eqn:E; [|reflexivity].
    apply Qltb_true in E. exfalso. eapply Qlt_not_le; eauto.
  - change (scan b (x :: xs)) with (scan (better b x) xs).
    change (scan g (map (relabel phi) (x :: xs)))
      with (scan (better g (relabel phi x)) (map (relabel phi) xs)).
    unfold better.
    destruct (Py.Qltb (snd g) (snd (relabel phi x))) eqn:Cg; cbn [relabel snd] in Cg.
    + assert (Cb : Py.Qltb (snd b) (snd x) = true).
      { apply Qltb_true. apply Qltb_true in Cg.
        eapply Qle_lt_trans; eauto. }
      rewrite Cb.
      assert (E : Py.Qltb (snd g) (snd (scan x xs)) = true).
      { apply Qltb_true. apply Qltb_true in Cg.
        eapply Qlt_le_trans; [exact Cg | apply scan_ge]. }
      rewrite E. symmetry. apply (scan_map xs x).
    + apply Qltb_false in Cg.
      destruct (Py.Qltb (snd b) (snd x)) eqn:Cb.
      * apply IH. exact Cg.
      * apply IH. exact Hbg.
Qed.

End ScanTransport.

(** ** The Markov parameter search *)

Section GridFacts.

Import Reference.

Lemma grid_In es ee is_ ie e i :
  In (e, i) (grid es ee is_ ie) <-> (es <= e <= ee /\ is_ <= i < ie).
Proof.
  unfold grid. rewrite in_flat_map. split.
  - intros (e' & He & Hi). apply in_map_iff in Hi as (i' & [= <- <-] & Hi).
    apply range_In in He, Hi. lia.
  - intros [He Hi]. exists e. split; [apply range_In; lia|].
    apply in_map. apply range_In. lia.
Qed.

Lemma StronglySorted_app {A} (R : A -> A -> Prop) (l1 l2 : list A) :
  StronglySorted R l1 -> StronglySorted R l2 ->
  (forall x y, In x l1 -> In y l2 -> R x y) ->
  StronglySorted R (l1 ++ l2).
Proof.
  intros H1 H2 H. induction H1 as [|a l1 Hl1 IH Ha]; cbn; [exact H2|].
  constructor.
  - apply IH. intros x y Hx Hy. apply H; [now right | exact Hy].
  - apply Forall_app. split; [exact Ha|].
    apply Forall_forall. intros y Hy. apply H; [now left | exact Hy].
Qed.

Lemma range_sorted a b : StronglySorted Z.lt (Py.range a b).
Proof.
  remember (Z.to_nat (b - a)) as n eqn:En. revert a En.
  induction n as [|n IH]; intros a En.
  - rewrite range_empty by lia. constructor.
  - rewrite range_cons by lia. constructor.
    + apply IH. lia.
    + apply Forall_forall. intros x Hx. apply range_In in Hx. lia.
Qed.

Lemma row_sorted (e : Z) (r : list Z) :
  StronglySorted Z.lt r -> StronglySorted lex_lt (map (pair e) r).
Proof.
  induction 1 as [|i r Hr IHr Hi]; cbn; constructor; [exact IHr|].
  apply Forall_forall. intros [e' i'] Hx.
  apply in_map_iff in Hx as (j & [= <- <-] & Hj).
  rewrite Forall_forall in Hi. right. cbn. split; [reflexivity | now apply Hi].
Qed.

Lemma grid_sorted es ee is_ ie : StronglySorted lex_lt (grid es ee is_ ie).
Proof.
  unfold grid.
  pose proof (range_sorted es (ee + 1)) as Hs.
  induction Hs as [|e l Hl IH He]; cbn; [constructor|].
  apply StronglySorted_app.
  - apply row_sorted, range_sorted.
  - exact IH.
  - intros [e1 i1] [e2 i2] H1 H2.
    apply in_map_iff in H1 as (j & [= <- <-] & _).
    apply in_flat_map in H2 as (e' & He' & Hi').
    apply in_map_iff in Hi' as (j' & [= <- <-] & _).
    rewrite Forall_forall in He. left. cbn. now apply He.
Qed.

(** In a list sorted by iteration order, what comes before an entry is
    exactly what is smaller. *)
Lemma sorted_split_before (before after : list (Z * Z)) (p x : Z * Z) :
  StronglySorted lex_lt (before ++ p :: after) ->
  In x (before ++ p :: after) -> lex_lt x p -> In x before.
Proof.
  intros Hs Hx Hlt. apply in_app_or in Hx as [Hx | [<- | Hx]]; [exact Hx | |].
  - exfalso. unfold lex_lt in Hlt. lia.
  - exfalso. induction before as [|y before IH]; cbn in Hs.
    + apply StronglySorted_inv in Hs as [_ Hall].
      rewrite Forall_forall in Hall. specialize (Hall x Hx).
      unfold lex_lt in *. lia.
    + apply StronglySorted_inv in Hs as [Hs _]. now apply IH.
Qed.

End GridFacts.

Section MarkovFacts.

Import Reference Markov.

Variable mc : MCL.
Variable matr : matrix mc.

Lemma mc_train_run (expand : Z) (f : Z -> Q) (row : list Z) :
  (forall i, In i row -> mc_loop mc matr expand (tenth i) = Some (f i)) ->
  forall (b : Q * Q) (ser : list Q),
  Py.for_each (map tenth row) (mc_train_step mc matr expand) (fst b, snd b, ser)
  = Some (fst (scan b (map (fun i => (tenth i, f i)) row)),
          snd (scan b (map (fun i => (tenth i, f i)) row)),
          ser ++ map f row).
Proof.
  induction row as [|i row IH]; intros H b ser.
  - cbn. now rewrite app_nil_r.
  - cbn [map Py.for_each]. unfold mc_train_step at 1.
    rewrite (H i) by now left. cbn [bind Monad_option ret].
    change (scan b ((tenth i, f i) :: map (fun i => (tenth i, f i)) row))
      with (scan (better b (tenth i, f i)) (map (fun i => (tenth i, f i)) row)).
    specialize (IH (fun j Hj => H j (or_intror Hj))
                   (better b (tenth i, f i)) (ser ++ [f i])).
    rewrite <- app_assoc in IH. cbn [app] in IH. rewrite <- IH.
    unfold better. cbn [snd fst].
    now destruct (Py.Qltb (snd b) (f i)).
Qed.

Lemma mc_train_scan (expand start end_ : Z) (f : Z -> Q) :
  (forall i, start <= i < end_ ->
             mc_loop mc matr expand (tenth i) = Some (f i)) ->
  mc_train mc matr expand start end_
  = Some (fst (scan (0%Q, 0%Q) (map (fun i => (tenth i, f i)) (Py.range start end_))),
          snd (scan (0%Q, 0%Q) (map (fun i => (tenth i, f i)) (Py.range start end_))),
          map f (Py.range start end_)).
Proof.
  intros H. unfold mc_train.
  apply (mc_train_run expand f (Py.range start end_)
           (fun i Hi => H i (proj1 (range_In _ _ _) Hi)) (0%Q, 0%Q) []).
Qed.

Variable modq : Z -> Z -> Q.
Variables infl_start infl_end : Z.

Lemma grand_run (es : list Z) :
  (forall e i, In e es -> infl_start <= i < infl_end ->
               mc_loop mc matr e (tenth i) = Some (modq e i)) ->
  forall (g : Z * Q * Q) (ser : list (list Q)),
  (0 <= snd g)%Q ->
  Py.for_each es (grand_step mc matr infl_start infl_end) (state_of g ser)
  = Some (state_of (scan g (candidates modq infl_start infl_end es))
                   (ser ++ map (fun e => map (modq e) (Py.range infl_start infl_end)) es)).
Proof.
  induction es as [|e es IH]; intros H g ser Hg.
  - cbn. now rewrite app_nil_r.
  - cbn [Py.for_each]. unfold grand_step at 1.
    rewrite (mc_train_scan e infl_start infl_end (modq e))
      by (intros i Hi; apply H; [now left | exact Hi]).
    cbn [bind Monad_option ret].
    set (row := map (fun i => (tenth i, modq e i)) (Py.range infl_start infl_end)).
    pose proof (scan_rebase (pair e) row (0%Q, 0%Q) g Hg) as R.
    cbn [fst snd] in R.
    assert (Erow : map (relabel (pair e)) row
                   = map (fun i => ((e, tenth i), modq e i))
                         (Py.range infl_start infl_end)).
    { unfold row. rewrite map_map. reflexivity. }
    rewrite Erow in R. cbn [state_of grand_max_modularity mod_ser_by_expansion].
    transitivity
      (Py.for_each es (grand_step mc matr infl_start infl_end)
         (state_of (scan g (map (fun i => ((e, tenth i), modq e i))
                                (Py.range infl_start infl_end)))
                   (ser ++ [map (modq e) (Py.range infl_start infl_end)]))).
    { revert R. destruct (Py.Qltb (snd g) (snd (scan (0%Q, 0%Q) row)));
        intros <-; reflexivity. }
    rewrite IH.
    + unfold candidates. cbn [flat_map map]. unfold scan.
      rewrite fold_left_app, <- app_assoc. reflexivity.
    + intros e' i He' Hi. apply H; [now right | exact Hi].
    + eapply Qle_trans; [exact Hg | apply scan_ge].
Qed.

Variables expand_start expand_end : Z.

(** Every trial of the sweep returns, with modularity [modq e i]. *)
Hypothesis trials :
  forall e i, expand_start <= e <= expand_end -> infl_start <= i < infl_end ->
              mc_loop mc matr e (tenth i) = Some (modq e i).

Lemma markov_search_scan :
  markov_search mc matr expand_start expand_end infl_start infl_end
  = Some (state_of
            (relabel code_label
               (scan (None, 0%Q)
                     (map (scored modq)
                          (grid expand_start expand_end infl_start infl_end))))
            (series modq expand_start expand_end infl_start infl_end)).
Proof.
  unfold markov_search.
  change {| max_expand := 0; grand_max_infl := 0%Q; grand_max_modularity := 0%Q;
            mod_ser_by_expansion := [] |}
    with (state_of ((0, 0%Q), 0%Q) []).
  rewrite grand_run.
  - f_equal. f_equal.
    change ((0, 0%Q), 0%Q) with (relabel code_label (None, 0%Q)).
    rewrite <- (scan_map code_label). f_equal.
    unfold candidates, grid.
    induction (Py.range expand_start (expand_end + 1)) as [|e es IHes];
      [reflexivity|].
    cbn [flat_map]. rewrite !map_app, <- IHes, !map_map. reflexivity.
  - intros e i He Hi. apply trials; [apply range_In in He; lia | exact Hi].
  - apply Qle_refl.
Qed.

(** C8 (amended). When every trial of the sweep returns a modularity that
    is at most 0, the search ends on its initial values: expansion 0,
    inflation 0 and best modularity 0, with the full series recorded;
    [markov_grand_loop] then runs the clusterer at (0, 0) and its outcome
    is the outcome of that run, an error when that run raises. *)
Theorem markov_search_baseline :
  (forall e i, expand_start <= e <= expand_end -> infl_start <= i < infl_end ->
               (modq e i <= 0)%Q) ->
  markov_search mc matr expand_start expand_end infl_start infl_end
  = Some {| max_expand := 0; grand_max_infl := 0%Q; grand_max_modularity := 0%Q;
            mod_ser_by_expansion :=
              map (fun e => map (modq e) (Py.range infl_start infl_end))
                  (Py.range expand_start (expand_end + 1)) |}
  /\ markov_grand_loop mc matr expand_start expand_end infl_start infl_end
     = mc_loop_final mc matr 0 0%Q.
Proof.
  intros Hle.
  assert (E : markov_search mc matr expand_start expand_end infl_start infl_end
              = Some (state_of ((0, 0%Q), 0%Q) (series modq expand_start expand_end infl_start infl_end))).
  { rewrite markov_search_scan. rewrite scan_keeps; [reflexivity|].
    intros x Hx. apply in_map_iff in Hx as ([e i] & <- & Hp).
    apply grid_In in Hp. cbn. now apply Hle. }
  split; [exact E|].
  unfold markov_grand_loop. rewrite E. reflexivity.
Qed.

(** C2 (amended). When every trial returns and some combination has a
    strictly positive modularity, the search records every combination's
    modularity and ends on a combination (E, I/10) of the sweep whose
    modularity is maximal and strictly larger than that of every
    combination visited before it (expansion ascending, then inflation
    ascending); [markov_grand_loop] returns what the clusterer gives when
    run once more at (E, I/10). *)
Theorem markov_search_first_maximum :
  (exists e i, expand_start <= e <= expand_end /\ infl_start <= i < infl_end
               /\ (0 < modq e i)%Q) ->
  exists E I,
    (expand_start <= E <= expand_end /\ infl_start <= I < infl_end)
    /\ (forall e i, expand_start <= e <= expand_end -> infl_start <= i < infl_end ->
                    (modq e i <= modq E I)%Q)
    /\ (forall e i, expand_start <= e <= expand_end -> infl_start <= i < infl_end ->
                    e < E \/ (e = E /\ i < I) -> (modq e i < modq E I)%Q)
    /\ markov_search mc matr expand_start expand_end infl_start infl_end
       = Some {| max_expand := E; grand_max_infl := tenth I;
                 grand_max_modularity := modq E I;
                 mod_ser_by_expansion :=
                   map (fun e => map (modq e) (Py.range infl_start infl_end))
                       (Py.range expand_start (expand_end + 1)) |}
    /\ markov_grand_loop mc matr expand_start expand_end infl_start infl_end
       = mc_loop_final mc matr E (tenth I).
Proof.
  intros (e0 & i0 & He0 & Hi0 & Hpos).
  pose proof markov_search_scan as E.
  set (cands := map (scored modq) (grid expand_start expand_end infl_start infl_end)) in E.
  destruct (scan_spec cands (None, 0%Q))
    as [[_ Hall] | (l1 & l2 & Hsplit & Hb & H1 & H2)].
  { exfalso. eapply Qlt_not_le; [exact Hpos|].
    apply (Hall (scored modq (e0, i0))). apply in_map. now apply grid_In. }
  unfold cands in Hsplit at 1.
  apply map_eq_app in Hsplit as (before & rest & Hgrid & Hbefore & Hrest).
  apply map_eq_cons in Hrest as ([E0 I0] & after & -> & Hwin & Hafter).
  exists E0, I0.
  assert (Hin : In (E0, I0) (grid expand_start expand_end infl_start infl_end)).
  { rewrite Hgrid. apply in_or_app. right. now left. }
  assert (Hlater : forall e i, In (e, i) ((E0, I0) :: after) ->
                               (modq e i <= modq E0 I0)%Q).
  { intros e i [[= <- <-] | Hx]; [apply Qle_refl|].
    specialize (H2 (scored modq (e, i))). rewrite <- Hwin in H2. cbn in H2.
    apply H2. rewrite <- Hafter. now apply in_map. }
  assert (Hearlier : forall e i, In (e, i) before -> (modq e i < modq E0 I0)%Q).
  { intros e i Hx. specialize (H1 (scored modq (e, i))). rewrite <- Hwin in H1.
    cbn in H1. apply H1. rewrite <- Hbefore. now apply in_map. }
  split; [now apply grid_In in Hin|].
  split.
  { intros e i He Hi.
    assert (Hx : In (e, i) (grid expand_start expand_end infl_start infl_end))
      by now apply grid_In.
    rewrite Hgrid in Hx. apply in_app_or in Hx as [Hx | Hx].
    - apply Qlt_le_weak. now apply Hearlier.
    - now apply Hlater. }
  split.
  { intros e i He Hi Hlt. apply Hearlier.
    apply (sorted_split_before before after (E0, I0) (e, i)).
    - rewrite <- Hgrid. apply grid_sorted.
    - rewrite <- Hgrid. now apply grid_In.
    - exact Hlt. }
  assert (Es : markov_search mc matr expand_start expand_end infl_start infl_end
               = Some (state_of ((E0, tenth I0), modq E0 I0) (series modq expand_start expand_end infl_start infl_end))).
  { rewrite E. rewrite <- Hwin. reflexivity. }
  split; [exact Es|].
  unfold markov_grand_loop. rewrite Es. reflexivity.
Qed.

End MarkovFacts.

Section MarkovExamples.

Import Markov Examples.

Lemma markov_search_baseline_witness :
  markov_search (mcl_with poor_score) tt 2 3 11 13
  = Some {| max_expand := 0; grand_max_infl := 0%Q; grand_max_modularity := 0%Q;
            mod_ser_by_expansion :=
              map (fun e => map (fun i => poor_score e (tenth i)) (Py.range 11 13))
                  (Py.range 2 (3 + 1)) |}
  /\ markov_grand_loop (mcl_with poor_score) tt 2 3 11 13
     = mc_loop_final (mcl_with poor_score) tt 0 0%Q.
Proof.
  apply (markov_search_baseline (mcl_with poor_score) tt
           (fun e i => poor_score e (tenth i)) 11 13 2 3).
  - intros e i _ _. reflexivity.
  - intros e i _ _. unfold poor_score. discriminate.
Defined.

Lemma markov_search_first_maximum_witness :
  exists E I,
    (2 <= E <= 4 /\ 11 <= I < 14)
    /\ (forall e i, 2 <= e <= 4 -> 11 <= i < 14 ->
                    (tied_score e (tenth i) <= tied_score E (tenth I))%Q)
    /\ (forall e i, 2 <= e <= 4 -> 11 <= i < 14 ->
                    e < E \/ (e = E /\ i < I) ->
                    (tied_score e (tenth i) < tied_score E (tenth I))%Q)
    /\ markov_search (mcl_with tied_score) tt 2 4 11 14
       = Some {| max_expand := E; grand_max_infl := tenth I;
                 grand_max_modularity := tied_score E (tenth I);
                 mod_ser_by_expansion :=
                   map (fun e => map (fun i => tied_score e (tenth i)) (Py.range 11 14))
                       (Py.range 2 (4 + 1)) |}
    /\ markov_grand_loop (mcl_with tied_score) tt 2 4 11 14
       = mc_loop_final (mcl_with tied_score) tt E (tenth I).
Proof.
  apply (markov_search_first_maximum (mcl_with tied_score) tt
           (fun e i => tied_score e (tenth i)) 11 14 2 4).
  - intros e i _ _. reflexivity.
  - exists 2, 11. repeat split; try lia.
Defined.

(** With ties at the maximum, the search of the example ends on the first
    of them: expansion 3, inflation 1.1. *)
Example markov_search_tied :
  markov_search (mcl_with tied_score) tt 2 4 11 14
  = Some {| max_expand := 3; grand_max_infl := (11 # 10)%Q;
            grand_max_modularity := 1%Q;
            mod_ser_by_expansion :=
              [[(1 # 2)%Q; (1 # 2)%Q; (1 # 2)%Q]; [1%Q; 1%Q; 1%Q]; [1%Q; 1%Q; 1%Q]] |}.
Proof. reflexivity. Qed.

(** C2, as stated, fails: when no trial has a positive modularity the
    search does not end on a combination of the sweep. *)
Lemma markov_search_selects_outside_sweep :
  ~ (exists E I st,
        (2 <= E <= 3 /\ 11 <= I < 13)
        /\ markov_search (mcl_with poor_score) tt 2 3 11 13 = Some st
        /\ max_expand st = E /\ grand_max_infl st = tenth I).
Proof.
  intros (E & I & st & [HE _] & Hst & HmE & _).
  vm_compute in Hst. injection Hst as <-. cbn in HmE. lia.
Qed.

(** C8, as stated, fails: with a clustering package that checks its
    parameters every trial of the sweep returns the modularity -1/4, the
    search ends on (0, 0), and the final run at (0, 0) raises. *)
Lemma markov_grand_loop_raises_at_baseline :
  markov_search (mcl_asserting poor_score) tt 2 3 11 13
  = Some {| max_expand := 0; grand_max_infl := 0%Q; grand_max_modularity := 0%Q;
            mod_ser_by_expansion :=
              [[(- (1 # 4))%Q; (- (1 # 4))%Q]; [(- (1 # 4))%Q; (- (1 # 4))%Q]] |}
  /\ markov_grand_loop (mcl_asserting poor_score) tt 2 3 11 13 = None.
Proof. split; reflexivity. Qed.

End MarkovExamples.

(** ** Dictionaries and indexed updates *)

Section DictFacts.

Context {V : Type}.

Lemma dict_set_fresh (d : Py.dict V) k v :
  ~ In k (Py.keys d) -> Py.dict_set d k v = d ++ [(k, v)].
Proof.
  induction d as [|[k' v'] d IH]; intros H; cbn; [reflexivity|].
  destruct (Z.eqb_spec k k') as [->|Hne].
  - exfalso. apply H. now left.
  - f_equal. apply IH. intros Hin. apply H. now right.
Qed.

Lemma dict_of_distinct (pairs : list (Z * V)) :
  NoDup (map fst pairs) -> Py.dict_of pairs = pairs.
Proof.
  unfold Py.dict_of.
  enough (G : forall d, NoDup (map fst (d ++ pairs)) ->
            fold_left (fun d kv => Py.dict_set d (fst kv) (snd kv)) pairs d
            = d ++ pairs) by exact (G []).
  induction pairs as [|[k v] pairs IH]; intros d H; cbn.
  - now rewrite app_nil_r.
  - rewrite dict_set_fresh.
    + rewrite IH; rewrite <- app_assoc; [reflexivity | exact H].
    + rewrite map_app in H. cbn in H. apply NoDup_remove_2 in H.
      intros Hin. apply H. apply in_or_app. now left.
Qed.

Lemma dict_get_key (d : Py.dict V) k :
  In k (Py.keys d) -> exists v, Py.dict_get d k = Some v /\ In (k, v) d.
Proof.
  induction d as [|[k' v'] d IH]; intros H; [destruct H|].
  cbn. destruct (Z.eqb_spec k k') as [->|Hne].
  - exists v'. split; [reflexivity | now left].
  - destruct H as [H|H]; [cbn in H; congruence|].
    destruct (IH H) as (v & Hv & Hin). exists v. split; [exact Hv | now right].
Qed.

End DictFacts.

Section IndexFacts.

Lemma index_pos_in_range len idx :
  0 <= idx < Z.of_nat len -> Py.index_pos len idx = Some (Z.to_nat idx).
Proof.
  intros H. unfold Py.index_pos.
  destruct (Z.leb_spec 0 idx); [|lia].
  destruct (Z.ltb_spec idx (Z.of_nat len)); [reflexivity | lia].
Qed.

Lemma map_fst_zip {A B} (xs : list A) (ys : list B) :
  length xs = length ys -> map fst (Py.zip xs ys) = xs.
Proof.
  unfold Py.zip. revert ys.
  induction xs as [|x xs IH]; intros [|y ys] H; cbn in *; try congruence.
  f_equal. apply IH. congruence.
Qed.

Lemma update_at_length {A} (l : list A) p f :
  length (Py.update_at l p f) = length l.
Proof.
  revert p. induction l as [|x l IH]; intros [|p]; cbn; auto.
Qed.

Lemma update_at_concat {A} (cl : list (list A)) p x :
  (p < length cl)%nat ->
  Permutation (concat (Py.update_at cl p (fun c => c ++ [x]))) (concat cl ++ [x]).
Proof.
  revert p. induction cl as [|c cl IH]; intros p Hp; cbn in Hp; [lia|].
  destruct p as [|p]; cbn.
  - rewrite <- !app_assoc. apply Permutation_app_head.
    apply Permutation_app_comm.
  - rewrite <- app_assoc. apply Permutation_app_head. apply IH. lia.
Qed.

End IndexFacts.

(** ** The spectral pipeline *)

Section SpectralFacts.

Import Reference Spectral.

(** The grouping of [spectral_post_process] is total on labels below [n]
    and spreads the keys of the labeling over [n] clusters. *)
Lemma post_process_loop (d : Py.dict Z) (ks : list Z) :
  forall cl : list (list Z),
  (forall j, In j ks ->
     exists lab, Py.dict_get d j = Some lab /\ 0 <= lab < Z.of_nat (length cl)) ->
  exists cl',
    Py.for_each ks (fun clusters j =>
                      lab <- Py.dict_get d j ;; Py.append_at clusters lab j) cl
    = Some cl'
    /\ length cl' = length cl
    /\ Permutation (concat cl') (concat cl ++ ks).
Proof.
  induction ks as [|j ks IH]; intros cl H.
  - exists cl. cbn. rewrite app_nil_r. auto.
  - destruct (H j (or_introl eq_refl)) as (lab & Hget & Hlab).
    set (cl1 := Py.update_at cl (Z.to_nat lab) (fun c => c ++ [j])).
    destruct (IH cl1) as (cl' & Hrun & Hlen & Hperm).
    { intros j' Hj'. destruct (H j' (or_intror Hj')) as (lab' & Hg & Hl).
      exists lab'. unfold cl1. now rewrite update_at_length. }
    exists cl'. split; [|split].
    + cbn [Py.for_each]. rewrite Hget. cbn [bind Monad_option].
      unfold Py.append_at. rewrite index_pos_in_range by exact Hlab.
      cbn [bind Monad_option ret]. exact Hrun.
    + rewrite Hlen. apply update_at_length.
    + rewrite Hperm. change (j :: ks) with ([j] ++ ks). rewrite app_assoc.
      apply Permutation_app_tail. apply update_at_concat. lia.
Qed.

Lemma post_process_partitions (n : Z) (d : Py.dict Z) :
  NoDup (Py.keys d) ->
  (forall k lab, In (k, lab) d -> 0 <= lab < n) ->
  exists cl, spectral_post_process n d = Some cl
             /\ Z.of_nat (length cl) = Z.max 0 n
             /\ partitions cl (Py.keys d).
Proof.
  intros Hnd Hlab. unfold spectral_post_process.
  set (cl0 := map (fun _ : Z => @nil Z) (Py.range 0 n)).
  assert (Hlen0 : Z.of_nat (length cl0) = Z.max 0 n).
  { unfold cl0. rewrite length_map, range_length. lia. }
  assert (Hc0 : concat cl0 = []).
  { unfold cl0. clear. induction (Py.range 0 n); cbn; auto. }
  destruct (post_process_loop d (Py.keys d) cl0) as (cl & Hrun & Hlen & Hperm).
  { intros j Hj. destruct (dict_get_key d j Hj) as (v & Hv & Hin).
    exists v. split; [exact Hv|]. specialize (Hlab j v Hin). lia. }
  exists cl. split; [exact Hrun|]. split; [now rewrite Hlen|].
  rewrite Hc0 in Hperm. cbn in Hperm. split.
  - eapply Permutation_NoDup; [symmetry; exact Hperm | exact Hnd].
  - intros v. split; intros Hv.
    + eapply Permutation_in; [exact Hperm | exact Hv].
    + eapply Permutation_in; [symmetry; exact Hperm | exact Hv].
Qed.

Variable np : Backend.

(** The labeling built by [spectral] and [spectral_2] is keyed by the
    positions 1, 2, ..., not by the identifiers of the graph's nodes. *)
Lemma labeling_keys (G : nx.Graph) (labels : list Z) :
  length labels = length (nx.nodes G) ->
  Py.keys (Py.dict_of (Py.zip (Py.range 1 (nx.number_of_nodes G + 1)) labels))
  = Py.range 1 (nx.number_of_nodes G + 1).
Proof.
  intros Hlen.
  assert (Hfst : map fst (Py.zip (Py.range 1 (nx.number_of_nodes G + 1)) labels)
                 = Py.range 1 (nx.number_of_nodes G + 1)).
  { apply map_fst_zip. rewrite range_length. unfold nx.number_of_nodes. lia. }
  rewrite dict_of_distinct; [exact Hfst|].
  rewrite Hfst. apply range_NoDup.
Qed.

(** With one label below [n] per node, grouping the labeling partitions
    the positions 1 .. |V|. *)
Lemma labeling_partitions (G : nx.Graph) (n : Z) (labels : list Z) :
  length labels = length (nx.nodes G) ->
  (forall lab, In lab labels -> 0 <= lab < n) ->
  exists cl,
    spectral_post_process n
      (Py.dict_of (Py.zip (Py.range 1 (nx.number_of_nodes G + 1)) labels))
    = Some cl
    /\ partitions cl (Py.range 1 (nx.number_of_nodes G + 1)).
Proof.
  intros Hlen Hlab.
  set (d := Py.dict_of (Py.zip (Py.range 1 (nx.number_of_nodes G + 1)) labels)).
  assert (Hkeys : Py.keys d = Py.range 1 (nx.number_of_nodes G + 1))
    by now apply labeling_keys.
  destruct (post_process_partitions n d) as (cl & Hcl & _ & Hpart).
  - rewrite Hkeys. apply range_NoDup.
  - intros k lab Hin. apply Hlab. unfold d in Hin.
    rewrite dict_of_distinct in Hin.
    + now apply in_combine_r in Hin.
    + rewrite map_fst_zip; [apply range_NoDup|].
      rewrite range_length. unfold nx.number_of_nodes. lia.
  - exists cl. rewrite <- Hkeys. auto.
Qed.

(** Whenever k-means returns one label below [n] per node, the clusters
    of [spectral] partition the positions 1 .. |V|. *)
Lemma spectral_partitions_positions (G : nx.Graph) (n : Z) emb (labels : list Z)
    (s s' : rng np) :
  spectral_embedding np G n = Some emb ->
  KMeans np n emb s = Some (labels, s') ->
  length labels = length (nx.nodes G) ->
  (forall lab, In lab labels -> 0 <= lab < n) ->
  exists d cl, spectral np G n s = Some (d, s')
               /\ spectral_post_process n d = Some cl
               /\ partitions cl (Py.range 1 (nx.number_of_nodes G + 1)).
Proof.
  intros Hemb Hkm Hlen Hlab.
  destruct (labeling_partitions G n labels Hlen Hlab) as (cl & Hcl & Hpart).
  eexists. exists cl. split; [|split; [exact Hcl | exact Hpart]].
  unfold spectral. rewrite Hemb. cbn [bind Monad_option]. rewrite Hkm.
  reflexivity.
Qed.

(** The same for the k-medoids variant [spectral_2]. *)
Lemma spectral_2_partitions_positions (G : nx.Graph) (n : Z) emb (labels : list Z)
    (s s' : rng np) :
  spectral_embedding np G n = Some emb ->
  KMedoids np n emb s = Some (labels, s') ->
  length labels = length (nx.nodes G) ->
  (forall lab, In lab labels -> 0 <= lab < n) ->
  exists d cl, spectral_2 np G n s = Some (d, s')
               /\ spectral_post_process n d = Some cl
               /\ partitions cl (Py.range 1 (nx.number_of_nodes G + 1)).
Proof.
  intros Hemb Hkm Hlen Hlab.
  destruct (labeling_partitions G n labels Hlen Hlab) as (cl & Hcl & Hpart).
  eexists. exists cl. split; [|split; [exact Hcl | exact Hpart]].
  unfold spectral_2. rewrite Hemb. cbn [bind Monad_option]. rewrite Hkm.
  reflexivity.
Qed.

End SpectralFacts.

Section SpectralSearch.

Import Reference Spectral SpectralExamples.

Lemma score_eqb_refl (s : score) : score_eqb s s = true.
Proof. unfold score_eqb. apply Qeq_bool_iff. reflexivity. Qed.


(** C4. On the path 0 - 1 - 2, whatever the three labels are, both
    clusterers return a labeling keyed by 1, 2, 3 while the nodes of the
    graph are 0, 1, 2. *)
Theorem spectral_keys_on_path3 (a b c : Z) (s : nat) :
  option_map (fun r => Py.keys (fst r))
             (spectral (backend_with [a; b; c] [a; b; c]) path3 2 s)
  = Some [1; 2; 3]
  /\ option_map (fun r => Py.keys (fst r))
                (spectral_2 (backend_with [a; b; c] [a; b; c]) path3 2 s)
     = Some [1; 2; 3]
  /\ nx.nodes path3 = [0; 1; 2].
Proof. repeat split. Qed.

(** C1. On the path 0 - 1 - 2 with the labels 0, 0, 1, the clusters are
    [1, 2] and [3]: node 0 lies in no cluster and 3, which is in a
    cluster, is not a node. *)
Theorem spectral_clusters_on_path3 (s : nat) :
  (r <- spectral (backend_with [0; 0; 1] [0; 0; 1]) path3 2 s ;;
   spectral_post_process 2 (fst r)) = Some [[1; 2]; [3]]
  /\ (r <- spectral_2 (backend_with [0; 0; 1] [0; 0; 1]) path3 2 s ;;
      spectral_post_process 2 (fst r)) = Some [[1; 2]; [3]]
  /\ In 0 (nx.nodes path3) /\ ~ In 0 (concat [[1; 2]; [3]])
  /\ In 3 (concat [[1; 2]; [3]]) /\ ~ In 3 (nx.nodes path3).
Proof.
  repeat split; cbn; try tauto; intros H; repeat destruct H as [H | H]; lia.
Qed.

End SpectralSearch.

(** ** The community filter *)

Section CommunityFacts.

Import nx Community RankingReference.

Lemma mem_In v l : mem v l = true <-> In v l.
Proof.
  unfold mem. rewrite existsb_exists. split.
  - intros (x & Hx & E). apply Z.eqb_eq in E. now subst.
  - intros H. exists v. split; [exact H | apply Z.eqb_refl].
Qed.

Lemma separate_communities_acc (G : Graph) (cs : list (list Z)) :
  forall acc,
  fold_left (fun comm i => if (length i <=? 4)%nat then comm
                           else comm ++ [subgraph G i]) cs acc
  = acc ++ map (subgraph G) (filter (fun c => (4 <? length c)%nat) cs).
Proof.
  induction cs as [|c cs IH]; intros acc; cbn [fold_left filter map].
  - now rewrite app_nil_r.
  - rewrite IH. destruct (Nat.leb_spec (length c) 4) as [Hle | Hgt].
    + destruct (Nat.ltb_spec 4 (length c)); [lia | reflexivity].
    + destruct (Nat.ltb_spec 4 (length c)); [|lia].
      cbn [map]. now rewrite <- app_assoc.
Qed.

Lemma separate_communities_filter_map (G : Graph) (cs : list (list Z)) :
  separate_communities G cs
  = map (subgraph G) (filter (fun c => (4 <? length c)%nat) cs).
Proof. unfold separate_communities. now rewrite separate_communities_acc. Qed.

(** C6. [separate_communities] returns the induced subgraphs of exactly
    the clusters with more than 4 elements, in the order of the cluster
    list; an edge is in the subgraph of a cluster exactly when it is an
    edge of the graph whose two endpoints are nodes in the cluster. *)
Theorem separate_communities_spec (G : Graph) (cs : list (list Z)) :
  separate_communities G cs
  = map (subgraph G) (filter (fun c => (4 <? length c)%nat) cs)
  /\ (forall c u v,
        In (u, v) (edges (subgraph G c))
        <-> In (u, v) (edges G)
            /\ (In u c /\ In u (nodes G)) /\ (In v c /\ In v (nodes G))).
Proof.
  split.
  - apply separate_communities_filter_map.
  - intros c u v. unfold subgraph. cbn [edges]. rewrite filter_In. cbn [fst snd].
    rewrite !andb_true_iff, !mem_In. tauto.
Qed.

Lemma mem_filter v (p : Z -> bool) l :
  mem v (filter p l) = mem v l && p v.
Proof.
  apply eq_true_iff_eq. rewrite andb_true_iff, !mem_In, filter_In. tauto.
Qed.

(** Restricting to the nodes of a subgraph gives that subgraph again. *)
Lemma subgraph_nodes_subgraph (G : Graph) (c : list Z) :
  subgraph G (nodes (subgraph G c)) = subgraph G c.
Proof.
  unfold subgraph. cbn [nodes].
  assert (K : forall v,
            mem v (filter (fun v => mem v c && mem v (nodes G)) (nodes G))
            && mem v (nodes G)
            = mem v c && mem v (nodes G)).
  { intros v. rewrite mem_filter.
    destruct (mem v c), (mem v (nodes G)); reflexivity. }
  f_equal.
  - apply filter_ext. exact K.
  - apply filter_ext. intros [u v]. cbn [fst snd]. now rewrite !K.
Qed.

Lemma subgraph_keeps_size (G : Graph) (c : list Z) :
  NoDup c -> incl c (nodes G) ->
  (length c <= length (nodes (subgraph G c)))%nat.
Proof.
  intros Hnd Hincl. apply NoDup_incl_length; [exact Hnd|].
  intros v Hv. unfold subgraph. cbn [nodes]. apply filter_In.
  split; [now apply Hincl|].
  apply andb_true_iff. split; apply mem_In; auto.
Qed.

(** C7 (amended). When every cluster is a duplicate-free list of nodes of
    the graph, filtering the node lists of the communities returned by
    [separate_communities] returns the same communities. *)
Theorem separate_communities_idempotent (G : Graph) (cs : list (list Z)) :
  (forall c, In c cs -> NoDup c /\ incl c (nodes G)) ->
  separate_communities G (map nodes (separate_communities G cs))
  = separate_communities G cs.
Proof.
  intros Hwf.
  rewrite (separate_communities_filter_map G cs).
  rewrite separate_communities_filter_map.
  induction cs as [|c cs IH]; [reflexivity|].
  cbn [filter]. destruct (Nat.ltb_spec 4 (length c)) as [Hbig | Hsmall].
  - cbn [map filter].
    destruct (Hwf c (or_introl eq_refl)) as [Hnd Hincl].
    pose proof (subgraph_keeps_size G c Hnd Hincl) as Hlen.
    destruct (Nat.ltb_spec 4 (length (nodes (subgraph G c)))); [|lia].
    cbn [map]. rewrite subgraph_nodes_subgraph. f_equal.
    apply IH. intros c' Hc'. apply Hwf. now right.
  - apply IH. intros c' Hc'. apply Hwf. now right.
Qed.

Lemma separate_communities_idempotent_witness :
  separate_communities path5 (map nodes (separate_communities path5 [[0; 1; 2; 3; 4]; [1; 2]]))
  = separate_communities path5 [[0; 1; 2; 3; 4]; [1; 2]].
Proof.
  apply (separate_communities_idempotent path5 [[0; 1; 2; 3; 4]; [1; 2]]).
  intros c [<- | [<- | []]]; split.
  - repeat constructor; cbn; intros H; repeat destruct H as [H | H]; lia.
  - intros v Hv. exact Hv.
  - repeat constructor; cbn; intros H; repeat destruct H as [H | H]; lia.
  - intros v Hv. cbn in *. tauto.
Defined.

(** C7, as stated, fails: a five-element cluster with an element that is
    not a node of the graph yields a four-node community, which filtering
    again drops. *)
Lemma separate_communities_not_idempotent :
  separate_communities path5 (map nodes (separate_communities path5 [shifted_cluster]))
  <> separate_communities path5 [shifted_cluster].
Proof. vm_compute. discriminate. Qed.

End CommunityFacts.

(** ** Stable sorting by score *)

Section SortFacts.

Import Reference.

Context {K : Type}.
Implicit Types (x : K * Q) (l r : list (K * Q)).

Lemma insert_by_score_perm x l : Permutation (Py.insert_by_score x l) (x :: l).
Proof.
  induction l as [|y l IH]; cbn; [reflexivity|].
  destruct (Qle_bool (snd x) (snd y)); [reflexivity|].
  rewrite IH. apply perm_swap.
Qed.

Lemma sorted_by_score_perm l : Permutation (Py.sorted_by_score l) l.
Proof.
  induction l as [|x l IH]; cbn; [reflexivity|].
  rewrite insert_by_score_perm. now apply perm_skip.
Qed.

Lemma insert_by_score_sorted x l :
  StronglySorted (fun a b => (snd a <= snd b)%Q) l ->
  StronglySorted (fun a b => (snd a <= snd b)%Q) (Py.insert_by_score x l).
Proof.
  induction 1 as [|y l Hl IH Hy]; cbn; [repeat constructor|].
  destruct (Qle_bool (snd x) (snd y)) eqn:C.
  - apply Qle_bool_iff in C. constructor; [now constructor|].
    constructor; [exact C|].
    rewrite Forall_forall in *. intros z Hz. eapply Qle_trans; eauto.
  - constructor; [exact IH|].
    assert (Hyx : (snd y <= snd x)%Q).
    { apply Qlt_le_weak, Qnot_le_lt. intros H. apply Qle_bool_iff in H. congruence. }
    rewrite Forall_forall in *. intros z Hz.
    apply (Permutation_in _ (insert_by_score_perm x l)) in Hz.
    destruct Hz as [<- | Hz]; auto.
Qed.

(** [sorted_by_score] arranges the entries by ascending score. *)
Lemma sorted_by_score_sorted l :
  StronglySorted (fun a b => (snd a <= snd b)%Q) (Py.sorted_by_score l).
Proof.
  induction l as [|x l IH]; cbn; [constructor|].
  now apply insert_by_score_sorted.
Qed.

Lemma insert_by_score_filter x r (q : Q) :
  filter (fun y => Qeq_bool (snd y) q) (Py.insert_by_score x r)
  = if Qeq_bool (snd x) q
    then x :: filter (fun y => Qeq_bool (snd y) q) r
    else filter (fun y => Qeq_bool (snd y) q) r.
Proof.
  induction r as [|y r IH]; cbn [Py.insert_by_score].
  - cbn. now destruct (Qeq_bool (snd x) q).
  - destruct (Qle_bool (snd x) (snd y)) eqn:C.
    + cbn [filter]. now destruct (Qeq_bool (snd x) q).
    + cbn [filter]. rewrite IH.
      destruct (Qeq_bool (snd x) q) eqn:Ex, (Qeq_bool (snd y) q) eqn:Ey;
        try reflexivity.
      exfalso. apply Qeq_bool_iff in Ex, Ey.
      assert (H : (snd x <= snd y)%Q) by (rewrite Ex, Ey; apply Qle_refl).
      apply Qle_bool_iff in H. congruence.
Qed.

(** Stability: entries of equal score keep their relative order. *)
Lemma sorted_by_score_stable l (q : Q) :
  filter (fun y => Qeq_bool (snd y) q) (Py.sorted_by_score l)
  = filter (fun y => Qeq_bool (snd y) q) l.
Proof.
  induction l as [|x l IH]; [reflexivity|].
  cbn [Py.sorted_by_score fold_right filter].
  fold (Py.sorted_by_score l). rewrite insert_by_score_filter, IH. reflexivity.
Qed.

(** An entry that scores above everything in [r] goes to the end. *)
Lemma insert_by_score_above x r :
  (forall y, In y r -> (snd y < snd x)%Q) -> Py.insert_by_score x r = r ++ [x].
Proof.
  induction r as [|y r IH]; intros H; cbn; [reflexivity|].
  destruct (Qle_bool (snd x) (snd y)) eqn:C.
  - apply Qle_bool_iff in C. exfalso.
    eapply Qlt_not_le; [apply (H y); now left | exact C].
  - f_equal. apply IH. intros z Hz. apply H. now right.
Qed.

(** An entry that scores at most [m] is inserted before a final [m]. *)
Lemma insert_by_score_below x r m :
  (snd x <= snd m)%Q ->
  Py.insert_by_score x (r ++ [m]) = Py.insert_by_score x r ++ [m].
Proof.
  intros Hle. induction r as [|y r IH]; cbn.
  - apply Qle_bool_iff in Hle. now rewrite Hle.
  - destruct (Qle_bool (snd x) (snd y)); [reflexivity|].
    cbn. now rewrite IH.
Qed.

(** Stability: the last entry of the sorted list is the last entry of
    maximal score of the original list. *)
Lemma sorted_by_score_last l n s :
  last_maximum l n s -> exists r, Py.sorted_by_score l = r ++ [(n, s)].
Proof.
  intros (l1 & l2 & -> & H1 & H2).
  induction l1 as [|x l1 IH].
  - exists (Py.sorted_by_score l2). cbn.
    apply insert_by_score_above. intros y Hy. cbn.
    apply H2. eapply Permutation_in; [apply sorted_by_score_perm | exact Hy].
  - destruct IH as (r & Hr); [intros y Hy; apply H1; now right|].
    exists (Py.insert_by_score x r). cbn [app Py.sorted_by_score fold_right].
    fold (Py.sorted_by_score (l1 ++ (n, s) :: l2)). rewrite Hr.
    apply insert_by_score_below. cbn. apply H1. now left.
Qed.

(** Every non-empty score mapping has a last entry of maximal score. *)
Lemma last_maximum_exists l : l <> [] -> exists n s, last_maximum l n s.
Proof.
  induction l as [|[k q] l IH]; intros Hne; [congruence|].
  destruct l as [|y l].
  - exists k, q, [], []. repeat split; intros x [].
  - destruct IH as (n & s & l1 & l2 & E & H1 & H2); [discriminate|].
    destruct (Qlt_le_dec s q) as [Hlt | Hle].
    + exists k, q, [], (y :: l). repeat split; [intros x []|].
      intros x Hx. rewrite E in Hx.
      apply in_app_or in Hx as [Hx | [<- | Hx]].
      * eapply Qle_lt_trans; [now apply H1 | exact Hlt].
      * exact Hlt.
      * eapply Qlt_trans; [now apply H2 | exact Hlt].
    + exists n, s, ((k, q) :: l1), l2. rewrite E. repeat split; auto.
      intros x [<- | Hx]; auto.
Qed.

End SortFacts.

(** ** The centrality rankers *)

Section RankingFacts.

Import Reference RankingReference nx Ranking.

Variable eigenvector_centrality : DiGraph -> option (Py.dict Q).

(** Sorting, reversing and taking the first key picks the last entry of
    maximal score. *)
Lemma first_key_sorted (ctr : Py.dict Q) (n : Z) (s : Q) :
  last_maximum ctr n s ->
  first_key (rev (Py.sorted_by_score ctr)) = Some n.
Proof.
  intros H. destruct (sorted_by_score_last ctr n s H) as (r & ->).
  rewrite rev_app_distr. reflexivity.
Qed.

Lemma first_key_empty : first_key (rev (Py.sorted_by_score (@nil (Z * Q)))) = None.
Proof. reflexivity. Qed.

Lemma ranker_of_mode (mode : Z) (G : Graph) (ctr : Py.dict Q) (n : Z) (s : Q)
    (lst : list Z) :
  scores eigenvector_centrality mode G = Some ctr ->
  last_maximum ctr n s ->
  (l1 <- (if mode =? 1 then degree_centrality G lst else ret lst) ;;
   l2 <- (if mode =? 2 then close_centrality G l1 else ret l1) ;;
   if mode =? 3 then eigencentrality eigenvector_centrality G l2 else ret l2)
  = Some (lst ++ [n]).
Proof.
  unfold scores. intros Hs Hmax.
  destruct (Z.eqb_spec mode 1) as [-> | H1].
  { injection Hs as <-. cbn [Z.eqb Pos.eqb]. unfold degree_centrality.
    rewrite (first_key_sorted _ n s Hmax). reflexivity. }
  destruct (Z.eqb_spec mode 2) as [-> | H2].
  { injection Hs as <-. cbn [bind Monad_option ret]. unfold close_centrality.
    rewrite (first_key_sorted _ n s Hmax). reflexivity. }
  destruct (Z.eqb_spec mode 3) as [-> | H3]; [|discriminate].
  cbn [bind Monad_option ret]. unfold eigencentrality. rewrite Hs.
  cbn [bind Monad_option]. rewrite (first_key_sorted _ n s Hmax). reflexivity.
Qed.

(** C10. In each mode, for every list of communities whose score mappings
    are defined and non-empty, [create_list_of_local_influencers] returns
    one node per community, in order: the key of the last entry of
    maximal score in the iteration order of that community's score
    mapping. *)
Theorem rankers_select_last_maximum (mode : Z) (communi : list Graph)
    (picks : list Z) :
  Forall2 (fun G n => exists ctr s,
             scores eigenvector_centrality mode G = Some ctr
             /\ last_maximum ctr n s) communi picks ->
  create_list_of_local_influencers eigenvector_centrality communi mode
  = Some picks.
Proof.
  unfold create_list_of_local_influencers.
  enough (G : forall lst,
            Forall2 (fun G n => exists ctr s,
                       scores eigenvector_centrality mode G = Some ctr
                       /\ last_maximum ctr n s) communi picks ->
            Py.for_each communi
              (fun influencer_list com =>
                 l1 <- (if mode =? 1 then degree_centrality com influencer_list
                        else ret influencer_list) ;;
                 l2 <- (if mode =? 2 then close_centrality com l1 else ret l1) ;;
                 if mode =? 3 then eigencentrality eigenvector_centrality com l2
                 else ret l2) lst
            = Some (lst ++ picks)) by exact (G []).
  intros lst H. revert lst.
  induction H as [|G n communi picks (ctr & s & Hs & Hmax) _ IH]; intros lst.
  - cbn. now rewrite app_nil_r.
  - cbn [Py.for_each]. rewrite (ranker_of_mode mode G ctr n s lst Hs Hmax).
    cbn [bind Monad_option]. rewrite IH, <- app_assoc. reflexivity.
Qed.

(** A ranker returns a node for every community whose score mapping is
    defined and non-empty. *)
Lemma ranker_returns (mode : Z) (G : Graph) (ctr : Py.dict Q) :
  scores eigenvector_centrality mode G = Some ctr -> ctr <> [] ->
  exists n s, last_maximum ctr n s
              /\ create_list_of_local_influencers eigenvector_centrality [G] mode
                 = Some [n].
Proof.
  intros Hs Hne. destruct (last_maximum_exists ctr Hne) as (n & s & Hmax).
  exists n, s. split; [exact Hmax|].
  unfold create_list_of_local_influencers. cbn [Py.for_each].
  rewrite (ranker_of_mode mode G ctr n s [] Hs Hmax). reflexivity.
Qed.

End RankingFacts.

Section RankingExamples.

Import Reference RankingReference nx Ranking.

Lemma rankers_select_last_maximum_witness :
  create_list_of_local_influencers no_eigenvector [triangle; path5] 1
  = Some [3; 3].
Proof.
  apply (rankers_select_last_maximum no_eigenvector 1 [triangle; path5] [3; 3]).
  constructor; [|constructor; [|constructor]].
  - exists [(1, 1%Q); (2, 1%Q); (3, 1%Q)], 1%Q. split; [reflexivity|].
    exists [(1, 1%Q); (2, 1%Q)], []. split; [reflexivity|].
    split; [|intros x []].
    intros x [<- | [<- | []]]; cbn; discriminate.
  - exists [(0, (1 # 4)%Q); (1, (1 # 2)%Q); (2, (1 # 2)%Q); (3, (1 # 2)%Q);
            (4, (1 # 4)%Q)], (1 # 2)%Q.
    split; [reflexivity|].
    exists [(0, (1 # 4)%Q); (1, (1 # 2)%Q); (2, (1 # 2)%Q)], [(4, (1 # 4)%Q)].
    split; [reflexivity|]. split.
    + intros x [<- | [<- | [<- | []]]]; cbn; discriminate.
    + intros x [<- | []]; reflexivity.
Defined.

(** C5 (amended). On the triangle 1, 2, 3 degree and closeness
    centrality give every node the score 1, and the degree-mode and the
    closeness-mode ranker both select node 3, the last node in the
    iteration order of the score mapping. *)
Theorem triangle_rankers :
  nx.degree_centrality triangle = [(1, 1%Q); (2, 1%Q); (3, 1%Q)]
  /\ nx.closeness_centrality triangle = [(1, 1%Q); (2, 1%Q); (3, 1%Q)]
  /\ forall eig,
       create_list_of_local_influencers eig [triangle] 1 = Some [3]
       /\ create_list_of_local_influencers eig [triangle] 2 = Some [3].
Proof. repeat split. Qed.

(** C5, as stated, fails: neither ranker selects node 1 on the triangle. *)
Lemma triangle_rankers_not_lowest_id :
  create_list_of_local_influencers no_eigenvector [triangle] 1 <> Some [1]
  /\ create_list_of_local_influencers no_eigenvector [triangle] 2 <> Some [1].
Proof. split; vm_compute; discriminate. Qed.

(** C9 (amended). On a community with a single node the degree-mode and
    closeness-mode rankers append that node, and so does the eigenvector
    mode whenever the eigenvector routine scores that node; on a community
    without nodes the degree-mode and closeness-mode rankers fail, and so
    does the eigenvector mode unless the routine invents a score. *)
Theorem rankers_on_small_communities
    (eig : DiGraph -> option (Py.dict Q)) (G : Graph) (lst : list Z) :
  (length (nodes G) <= 1)%nat ->
  match nodes G with
  | [] =>
      degree_centrality G lst = None
      /\ close_centrality G lst = None
      /\ ((forall ctr, eig (DiGraph_of G) = Some ctr -> ctr = []) ->
          eigencentrality eig G lst = None)
  | v :: _ =>
      degree_centrality G lst = Some (lst ++ [v])
      /\ close_centrality G lst = Some (lst ++ [v])
      /\ (forall s, eig (DiGraph_of G) = Some [(v, s)] ->
          eigencentrality eig G lst = Some (lst ++ [v]))
  end.
Proof.
  destruct G as [ns es]. cbn [nodes]. intros Hlen.
  destruct ns as [|v [|w ns]]; [| |cbn in Hlen; lia].
  - repeat split.
    intros Hctr. unfold eigencentrality.
    destruct (eig _) as [ctr|] eqn:E; [|reflexivity].
    rewrite (Hctr ctr eq_refl). reflexivity.
  - repeat split.
    intros s Hs. unfold eigencentrality. rewrite Hs. reflexivity.
Qed.

Lemma rankers_on_small_communities_witness :
  degree_centrality single_node [] = Some [7]
  /\ close_centrality single_node [] = Some [7]
  /\ eigencentrality single_eigenvector single_node [] = Some [7].
Proof.
  destruct (rankers_on_small_communities single_eigenvector single_node [])
    as (Hd & Hc & He); [cbn; lia|].
  split; [exact Hd | split; [exact Hc | apply (He 1%Q); reflexivity]].
Defined.

(** C9, as stated, fails: on a community without nodes every mode raises
    instead of returning a value. *)
Lemma rankers_fail_on_empty_community :
  create_list_of_local_influencers single_eigenvector [empty_graph] 1 = None
  /\ create_list_of_local_influencers single_eigenvector [empty_graph] 2 = None
  /\ create_list_of_local_influencers single_eigenvector [empty_graph] 3 = None.
Proof. repeat split. Qed.

End RankingExamples.

(** * Further properties of the code *)

(** ** Loops that raise *)

Section LoopFacts.

Lemma for_each_fails {A S} (xs : list A) (body : S -> A -> option S) (x : A) :
  In x xs -> (forall s, body s x = None) ->
  forall s, Py.for_each xs body s = None.
Proof.
  intros Hin Hx. induction xs as [|y xs IH]; intros s; [destruct Hin|].
  cbn [Py.for_each]. destruct Hin as [-> | Hin].
  - now rewrite Hx.
  - destruct (body s y); cbn [bind Monad_option]; [now apply IH | reflexivity].
Qed.

Lemma range_nth a b (p : nat) :
  (p < Z.to_nat (b - a))%nat ->
  nth_error (Py.range a b) p = Some (a + Z.of_nat p).
Proof.
  intros H. unfold Py.range.
  rewrite nth_error_map, nth_error_seq.
  destruct (Nat.ltb_spec p (Z.to_nat (b - a))); [reflexivity | lia].
Qed.

End LoopFacts.

(** ** The Markov search: failures, invariants, plotting *)

Section MarkovMore.

Import Reference Markov.

Variable mc : MCL.
Variable matr : matrix mc.

Lemma mc_train_fails (expand start end_ i : Z) :
  start <= i < end_ ->
  mc_loop mc matr expand (tenth i) = None ->
  mc_train mc matr expand start end_ = None.
Proof.
  intros Hi Hnone. unfold mc_train.
  apply (for_each_fails _ _ (tenth i)).
  - apply in_map. now apply range_In.
  - intros [[mi mm] ser]. unfold mc_train_step. now rewrite Hnone.
Qed.

(** X1. A single trial that raises makes the whole search raise: no
    partial result is returned. *)
Theorem markov_grand_loop_propagates_failure
    (expand_start expand_end infl_start infl_end e i : Z) :
  expand_start <= e <= expand_end -> infl_start <= i < infl_end ->
  mc_loop mc matr e (tenth i) = None ->
  markov_search mc matr expand_start expand_end infl_start infl_end = None
  /\ markov_grand_loop mc matr expand_start expand_end infl_start infl_end = None.
Proof.
  intros He Hi Hnone.
  assert (E : markov_search mc matr expand_start expand_end infl_start infl_end
              = None).
  { unfold markov_search. apply (for_each_fails _ _ e).
    - apply range_In. lia.
    - intros st. unfold grand_step.
      now rewrite (mc_train_fails e infl_start infl_end i Hi Hnone). }
  split; [exact E|]. unfold markov_grand_loop. now rewrite E.
Qed.

Lemma mc_train_loop_shape (expand : Z) (row : list Q) :
  forall mi mm ser mi' mm' ser',
  Py.for_each row (mc_train_step mc matr expand) (mi, mm, ser)
  = Some (mi', mm', ser') ->
  ((0 <= mm)%Q -> (0 <= mm')%Q) /\ length ser' = (length ser + length row)%nat.
Proof.
  induction row as [|r row IH]; intros mi mm ser mi' mm' ser' H.
  - cbn in H. injection H as <- <- <-. split; [auto | cbn; lia].
  - cbn [Py.for_each] in H. unfold mc_train_step at 1 in H.
    destruct (mc_loop mc matr expand r) as [q|]; [|discriminate].
    cbn [bind Monad_option ret] in H.
    destruct (Py.Qltb mm q) eqn:C; cbn [bind Monad_option ret] in H;
      apply IH in H as [Hpos Hlen]; rewrite length_app in Hlen; cbn in Hlen.
    + split; [|cbn; lia]. intros Hmm. apply Hpos.
      apply Qltb_true in C. apply Qlt_le_weak.
      eapply Qle_lt_trans; [exact Hmm | exact C].
    + split; [exact Hpos | cbn; lia].
Qed.

Lemma mc_train_shape (expand start end_ : Z) mi mm ser :
  mc_train mc matr expand start end_ = Some (mi, mm, ser) ->
  (0 <= mm)%Q /\ length ser = Z.to_nat (end_ - start).
Proof.
  unfold mc_train. intros H. apply mc_train_loop_shape in H as [Hpos Hlen].
  split; [apply Hpos, Qle_refl|].
  rewrite Hlen, length_map, range_length. reflexivity.
Qed.

Lemma grand_loop_shape (infl_start infl_end : Z) (es : list Z) :
  forall st st',
  Py.for_each es (grand_step mc matr infl_start infl_end) st = Some st' ->
  ((0 <= grand_max_modularity st)%Q -> (0 <= grand_max_modularity st')%Q)
  /\ exists rows,
       mod_ser_by_expansion st' = mod_ser_by_expansion st ++ rows
       /\ length rows = length es
       /\ (forall row, In row rows ->
             length row = Z.to_nat (infl_end - infl_start)).
Proof.
  induction es as [|e es IH]; intros st st' H.
  - cbn in H. injection H as <-. split; [auto|].
    exists []. rewrite app_nil_r. repeat split. intros row [].
  - cbn [Py.for_each] in H. unfold grand_step at 1 in H.
    destruct (mc_train mc matr e infl_start infl_end) as [[[mi mm] ser]|] eqn:T;
      [|discriminate].
    apply mc_train_shape in T as [Hmm Hser].
    cbn [bind Monad_option ret] in H.
    destruct (Py.Qltb (grand_max_modularity st) mm);
      cbn [bind Monad_option ret] in H;
      apply IH in H as [Hpos (rows & Hrows & Hlen & Hall)];
      cbn [grand_max_modularity mod_ser_by_expansion] in Hpos, Hrows.
    + split; [intros _; now apply Hpos|].
      exists (ser :: rows). rewrite Hrows, <- app_assoc. repeat split.
      * cbn. lia.
      * intros row [<- | Hr]; auto.
    + split; [exact Hpos|].
      exists (ser :: rows). rewrite Hrows, <- app_assoc. repeat split.
      * cbn. lia.
      * intros row [<- | Hr]; auto.
Qed.

Lemma markov_search_shape (expand_start expand_end infl_start infl_end : Z) st :
  markov_search mc matr expand_start expand_end infl_start infl_end = Some st ->
  (0 <= grand_max_modularity st)%Q
  /\ length (mod_ser_by_expansion st) = Z.to_nat (expand_end + 1 - expand_start)
  /\ (forall row, In row (mod_ser_by_expansion st) ->
        length row = Z.to_nat (infl_end - infl_start)).
Proof.
  unfold markov_search. intros H.
  apply grand_loop_shape in H as [Hpos (rows & Hrows & Hlen & Hall)].
  cbn [grand_max_modularity mod_ser_by_expansion app] in Hpos, Hrows.
  split; [apply Hpos, Qle_refl|]. rewrite Hrows.
  split; [now rewrite Hlen, range_length | exact Hall].
Qed.

(** X2. Whatever the trials return, a search that ends has a best
    modularity that is not negative, and has recorded one series per
    expansion, each with one entry per inflation value. *)
Theorem markov_search_invariants
    (expand_start expand_end infl_start infl_end : Z) (st : search_state) :
  markov_search mc matr expand_start expand_end infl_start infl_end = Some st ->
  (0 <= grand_max_modularity st)%Q
  /\ length (mod_ser_by_expansion st) = length (Py.range expand_start (expand_end + 1))
  /\ (forall row, In row (mod_ser_by_expansion st) ->
        length row = length (Py.range infl_start infl_end)).
Proof.
  intros H. rewrite !range_length. now apply markov_search_shape.
Qed.

End MarkovMore.

Section MarkovMoreExamples.

Import Markov Examples MoreExamples.

Lemma markov_grand_loop_propagates_failure_witness :
  markov_search mcl_rejecting_3 tt 2 4 11 14 = None
  /\ markov_grand_loop mcl_rejecting_3 tt 2 4 11 14 = None.
Proof.
  apply (markov_grand_loop_propagates_failure mcl_rejecting_3 tt 2 4 11 14 3 12).
  - lia.
  - lia.
  - reflexivity.
Defined.

Lemma markov_search_invariants_witness :
  (0 <= 1)%Q
  /\ length [[(1 # 2)%Q; (1 # 2)%Q; (1 # 2)%Q]; [1%Q; 1%Q; 1%Q]; [1%Q; 1%Q; 1%Q]]
     = length (Py.range 2 (4 + 1))
  /\ (forall row,
        In row [[(1 # 2)%Q; (1 # 2)%Q; (1 # 2)%Q]; [1%Q; 1%Q; 1%Q]; [1%Q; 1%Q; 1%Q]] ->
        length row = length (Py.range 11 14)).
Proof.
  apply (markov_search_invariants (mcl_with tied_score) tt 2 4 11 14
           {| max_expand := 3; grand_max_infl := (11 # 10)%Q;
              grand_max_modularity := 1%Q;
              mod_ser_by_expansion :=
                [[(1 # 2)%Q; (1 # 2)%Q; (1 # 2)%Q]; [1%Q; 1%Q; 1%Q]; [1%Q; 1%Q; 1%Q]] |}).
  reflexivity.
Defined.

End MarkovMoreExamples.

(** ** Plotting and cleaning *)

Section PlotFacts.

Import Markov.

Lemma getitem_nat {A} (l : list A) (i : nat) :
  Py.getitem l (Z.of_nat i) = nth_error l i.
Proof.
  unfold Py.getitem, Py.index_pos.
  destruct (Z.leb_spec 0 (Z.of_nat i)); [|lia].
  destruct (Z.ltb_spec (Z.of_nat i) (Z.of_nat (length l))); cbn [andb].
  - cbn [bind Monad_option]. now rewrite Nat2Z.id.
  - destruct (Z.ltb_spec (Z.of_nat i) 0); [lia|].
    rewrite andb_false_r. cbn [bind Monad_option].
    symmetry. apply nth_error_None. lia.
Qed.

Lemma draw_loop (x : list Q) (ys : list (list Q)) (cs : list Z) :
  forall (i : nat) (plots : list plot_call),
  (i <= length ys)%nat ->
  Py.for_each cs
    (fun (st : Z * list plot_call) c =>
       let '(i, plots) := st in
       y <- Py.getitem ys i ;;
       p <- plot x y c ;;
       ret (i + 1, plots ++ [p]))
    (Z.of_nat i, plots)
  = if (i + length cs <=? length ys)%nat
       && forallb (fun y => (length x =? length y)%nat)
                  (firstn (length cs) (skipn i ys))
    then Some (Z.of_nat (i + length cs),
               plots ++ map (fun cy => {| plot_x := x; plot_y := snd cy;
                                          plot_label := fst cy |})
                            (combine cs (skipn i ys)))
    else None.
Proof.
  induction cs as [|c cs IH]; intros i plots Hi.
  - cbn [Py.for_each length combine map firstn forallb].
    rewrite app_nil_r, Nat.add_0_r, andb_true_r.
    destruct (Nat.leb_spec i (length ys)); [reflexivity | lia].
  - cbn [Py.for_each length]. rewrite getitem_nat.
    destruct (nth_error ys i) as [y|] eqn:Ey.
    + assert (Hlt : (i < length ys)%nat)
        by (apply nth_error_Some; congruence).
      assert (Es : skipn i ys = y :: skipn (S i) ys).
      { clear - Ey. revert i Ey. induction ys as [|z ys IHys]; intros [|i] Ey;
          cbn in *; try discriminate.
        - now injection Ey as ->.
        - now apply IHys. }
      rewrite Es. cbn [firstn forallb combine map bind Monad_option].
      unfold plot. destruct (length x =? length y)%nat.
      * cbn [bind Monad_option ret andb].
        replace (Z.of_nat i + 1) with (Z.of_nat (S i)) by lia.
        rewrite IH by lia.
        replace (S i + length cs)%nat with (i + S (length cs))%nat by lia.
        destruct ((i + S (length cs) <=? length ys)%nat
                  && forallb (fun y0 => (length x =? length y0)%nat)
                             (firstn (length cs) (skipn (S i) ys)));
          [|reflexivity].
        rewrite <- app_assoc. reflexivity.
      * cbn [bind Monad_option andb]. now rewrite andb_false_r.
    + apply nth_error_None in Ey. cbn [bind Monad_option].
      destruct (Nat.leb_spec (i + S (length cs)) (length ys)); [lia | reflexivity].
Qed.

Lemma draw_graph_eval (x : list Q) (ys : list (list Q)) (exp_start exp_end : Z) :
  draw_graph x ys exp_start exp_end
  = if (length (Py.range exp_start (exp_end + 1)) <=? length ys)%nat
       && forallb (fun y => (length x =? length y)%nat)
                  (firstn (length (Py.range exp_start (exp_end + 1))) ys)
    then Some (map (fun cy => {| plot_x := x; plot_y := snd cy;
                                 plot_label := fst cy |})
                   (combine (Py.range exp_start (exp_end + 1)) ys))
    else None.
Proof.
  unfold draw_graph.
  change (0, @nil plot_call) with (Z.of_nat 0, @nil plot_call).
  rewrite draw_loop by lia. cbn [Nat.add skipn app].
  now destruct ((length (Py.range exp_start (exp_end + 1)) <=? length ys)%nat
                && forallb (fun y => (length x =? length y)%nat)
                           (firstn (length (Py.range exp_start (exp_end + 1))) ys)).
Qed.

Lemma plots_of_combine (x : list Q) (cs : list Z) :
  forall ys : list (list Q), (length cs <= length ys)%nat ->
  let plots := map (fun cy => {| plot_x := x; plot_y := snd cy;
                                 plot_label := fst cy |}) (combine cs ys) in
  map plot_label plots = cs
  /\ map plot_y plots = firstn (length cs) ys
  /\ (forall p, In p plots -> plot_x p = x).
Proof.
  induction cs as [|c cs IH]; intros ys H.
  - cbn. repeat split. intros p [].
  - destruct ys as [|y ys]; [cbn in H; lia|].
    destruct (IH ys) as (Hl & Hy & Hx); [cbn in H; lia|].
    cbn [combine map firstn length fst snd plot_label plot_y].
    rewrite Hl, Hy. repeat split.
    intros p [<- | Hp]; [reflexivity | now apply Hx].
Qed.

(** X3. [draw_graph] raises when it is given fewer series than there are
    expansion factors (index out of range), and when one of the series it
    reaches differs in length from the inflation series (the check of
    [plt.plot]); otherwise it plots, for the expansion factors in
    ascending order, the series at the same position against the
    inflation series, and ignores any further series. *)
Theorem draw_graph_spec (x : list Q) (ys : list (list Q)) (exp_start exp_end : Z) :
  ((length ys < length (Py.range exp_start (exp_end + 1)))%nat ->
   draw_graph x ys exp_start exp_end = None)
  /\ ((exists y, In y (firstn (length (Py.range exp_start (exp_end + 1))) ys)
                 /\ length y <> length x) ->
      draw_graph x ys exp_start exp_end = None)
  /\ ((length (Py.range exp_start (exp_end + 1)) <= length ys)%nat ->
      (forall y, In y (firstn (length (Py.range exp_start (exp_end + 1))) ys) ->
                 length y = length x) ->
      exists plots,
        draw_graph x ys exp_start exp_end = Some plots
        /\ map plot_label plots = Py.range exp_start (exp_end + 1)
        /\ map plot_y plots = firstn (length (Py.range exp_start (exp_end + 1))) ys
        /\ (forall p, In p plots -> plot_x p = x)).
Proof.
  rewrite draw_graph_eval. split; [|split].
  - intros H.
    destruct (Nat.leb_spec (length (Py.range exp_start (exp_end + 1))) (length ys));
      [lia | reflexivity].
  - intros (y & Hy & Hne).
    assert (E : forallb (fun y => (length x =? length y)%nat)
                  (firstn (length (Py.range exp_start (exp_end + 1))) ys) = false).
    { destruct (forallb _ _) eqn:F; [|reflexivity]. exfalso.
      rewrite forallb_forall in F. specialize (F y Hy).
      apply Nat.eqb_eq in F. congruence. }
    now rewrite E, andb_false_r.
  - intros Hlen Hall.
    assert (E : forallb (fun y => (length x =? length y)%nat)
                  (firstn (length (Py.range exp_start (exp_end + 1))) ys) = true).
    { apply forallb_forall. intros y Hy. apply Nat.eqb_eq. symmetry. now apply Hall. }
    rewrite E.
    destruct (Nat.leb_spec (length (Py.range exp_start (exp_end + 1))) (length ys));
      [|lia].
    eexists. split; [reflexivity|].
    now apply plots_of_combine.
Qed.

Lemma draw_graph_spec_witness :
  draw_graph [(11 # 10)%Q; (12 # 10)%Q] [[1%Q; 0%Q]] 2 3 = None
  /\ draw_graph [(11 # 10)%Q; (12 # 10)%Q] [[1%Q]] 2 2 = None
  /\ exists plots,
       draw_graph [(11 # 10)%Q; (12 # 10)%Q] [[1%Q; 0%Q]; [0%Q; 1%Q]; [1%Q; 1%Q]] 2 3
       = Some plots
       /\ map plot_label plots = Py.range 2 (3 + 1)
       /\ map plot_y plots
          = firstn (length (Py.range 2 (3 + 1))) [[1%Q; 0%Q]; [0%Q; 1%Q]; [1%Q; 1%Q]]
       /\ (forall p, In p plots -> plot_x p = [(11 # 10)%Q; (12 # 10)%Q]).
Proof.
  split; [|split].
  - apply (proj1 (draw_graph_spec [(11 # 10)%Q; (12 # 10)%Q] [[1%Q; 0%Q]] 2 3)).
    rewrite range_length. simpl. lia.
  - apply (proj1 (proj2 (draw_graph_spec [(11 # 10)%Q; (12 # 10)%Q] [[1%Q]] 2 2))).
    exists [1%Q]. split; [simpl; tauto | simpl; lia].
  - apply (proj2 (proj2 (draw_graph_spec [(11 # 10)%Q; (12 # 10)%Q]
                           [[1%Q; 0%Q]; [0%Q; 1%Q]; [1%Q; 1%Q]] 2 3))).
    + rewrite range_length. simpl. lia.
    + intros y Hy. simpl in Hy. destruct Hy as [<- | [<- | []]]; reflexivity.
Defined.

Lemma firstn_In {A} (m : nat) (l : list A) (a : A) :
  In a (firstn m l) -> In a l.
Proof.
  revert l. induction m as [|m IH]; intros [|b l] H; cbn in H; try tauto.
  destruct H as [-> | H]; [now left | right; now apply IH].
Qed.

Lemma series_aligned (x : list Q) (ys : list (list Q)) (m : nat) :
  (forall y, In y ys -> length y = length x) ->
  forallb (fun y => (length x =? length y)%nat) (firstn m ys) = true.
Proof.
  intros H. apply forallb_forall. intros y Hy. apply Nat.eqb_eq. symmetry.
  apply H. eapply firstn_In. exact Hy.
Qed.

(** X4. The call of [draw_graph] in [markov_grand_loop] never raises:
    with or without it the function returns the same value. *)
Theorem markov_grand_loop_plot_never_raises (mc : MCL) (matr : matrix mc)
    (expand_start expand_end infl_start infl_end : Z) :
  markov_grand_loop_with_plot mc matr expand_start expand_end infl_start infl_end
  = markov_grand_loop mc matr expand_start expand_end infl_start infl_end.
Proof.
  unfold markov_grand_loop_with_plot, markov_grand_loop.
  destruct (markov_search mc matr expand_start expand_end infl_start infl_end)
    as [st|] eqn:E; [|reflexivity].
  cbn [bind Monad_option].
  apply markov_search_shape in E as (_ & Hlen & Hrows).
  rewrite draw_graph_eval, range_length, Hlen, Nat.leb_refl.
  rewrite series_aligned; [reflexivity|].
  intros y Hy. rewrite (Hrows y Hy), length_map, range_length. reflexivity.
Qed.

(** X22. After a search that ends, [draw_graph] is handed well-shaped
    data: it makes one [plt.plot] call per expansion factor, and in each
    call the inflation series and the modularity series have the same
    length. *)
Theorem markov_plot_series_aligned (mc : MCL) (matr : matrix mc)
    (expand_start expand_end infl_start infl_end : Z) (st : search_state) :
  markov_search mc matr expand_start expand_end infl_start infl_end = Some st ->
  exists plots,
    draw_graph (map tenth (Py.range infl_start infl_end))
               (mod_ser_by_expansion st) expand_start expand_end
    = Some plots
    /\ map plot_label plots = Py.range expand_start (expand_end + 1)
    /\ (forall p, In p plots -> length (plot_x p) = length (plot_y p)).
Proof.
  intros E. apply markov_search_shape in E as (_ & Hlen & Hrows).
  rewrite draw_graph_eval, range_length, Hlen, Nat.leb_refl.
  rewrite series_aligned
    by (intros y Hy; rewrite (Hrows y Hy), length_map, range_length; reflexivity).
  eexists. split; [reflexivity|]. split.
  - apply plots_of_combine. now rewrite range_length, Hlen.
  - intros p Hp. apply in_map_iff in Hp as ([c y] & <- & Hcy).
    cbn [plot_x plot_y snd]. apply in_combine_r in Hcy.
    rewrite (Hrows y Hcy), length_map, range_length. reflexivity.
Qed.

Lemma markov_plot_series_aligned_witness :
  exists plots,
    draw_graph (map tenth (Py.range 11 14))
               [[(1 # 2)%Q; (1 # 2)%Q; (1 # 2)%Q]; [1%Q; 1%Q; 1%Q]; [1%Q; 1%Q; 1%Q]] 2 4
    = Some plots
    /\ map plot_label plots = Py.range 2 (4 + 1)
    /\ (forall p, In p plots -> length (plot_x p) = length (plot_y p)).
Proof.
  apply (markov_plot_series_aligned (Examples.mcl_with Examples.tied_score) tt 2 4 11 14
           {| max_expand := 3; grand_max_infl := (11 # 10)%Q;
              grand_max_modularity := 1%Q;
              mod_ser_by_expansion :=
                [[(1 # 2)%Q; (1 # 2)%Q; (1 # 2)%Q]; [1%Q; 1%Q; 1%Q]; [1%Q; 1%Q; 1%Q]] |}).
  reflexivity.
Defined.

Lemma final_clean_loop (clust : list (list Z)) (m : nat) :
  forall (a : nat) (acc : list (list Z)),
  (a + m = length clust)%nat ->
  Py.for_each (map (fun k => 0 + Z.of_nat k) (seq a m))
    (fun cl i => lis <- Py.getitem clust i ;; ret (cl ++ [lis])) acc
  = Some (acc ++ skipn a clust).
Proof.
  induction m as [|m IH]; intros a acc H.
  - cbn. rewrite skipn_all2 by lia. now rewrite app_nil_r.
  - cbn [seq map Py.for_each]. rewrite Z.add_0_l, getitem_nat.
    destruct (nth_error clust a) as [c|] eqn:Ec.
    + cbn [bind Monad_option ret]. rewrite IH by lia.
      rewrite <- app_assoc. f_equal. f_equal.
      clear - Ec. revert a Ec. induction clust as [|z cl IHc]; intros [|a] Ec;
        cbn in *; try discriminate.
      * now injection Ec as ->.
      * now apply IHc.
    + apply nth_error_None in Ec. lia.
Qed.

(** X5. [final_clean] never raises and returns the clusters it is given,
    each with its elements in the same order. *)
Theorem final_clean_identity (clust : list (list Z)) :
  final_clean clust = Some clust.
Proof.
  unfold final_clean, Py.range. rewrite Z.sub_0_r, Nat2Z.id.
  now rewrite (final_clean_loop clust (length clust) 0 []).
Qed.

End PlotFacts.

Section MarkovSingle.

Import Markov.

(** X6. A sweep of a single combination: the search returns the
    clusterer's result at that combination when its modularity is
    positive, and the clusterer's result at (0, 0) otherwise. *)
Theorem markov_grand_loop_single (mc : MCL) (matr : matrix mc) (e i : Z) (q : Q) :
  mc_loop mc matr e (tenth i) = Some q ->
  markov_grand_loop mc matr e e i (i + 1)
  = if Py.Qltb 0 q then mc_loop_final mc matr e (tenth i)
    else mc_loop_final mc matr 0 0%Q.
Proof.
  intros H. unfold markov_grand_loop, markov_search.
  rewrite range_single. cbn [Py.for_each]. unfold grand_step, mc_train.
  rewrite range_single. cbn [map Py.for_each]. unfold mc_train_step.
  rewrite H. cbn [bind Monad_option ret].
  destruct (Py.Qltb 0 q) eqn:C; cbn [bind Monad_option ret grand_max_modularity].
  - rewrite C. reflexivity.
  - unfold Py.Qltb. cbn. reflexivity.
Qed.

Lemma markov_grand_loop_single_witness :
  markov_grand_loop (Examples.mcl_with Examples.tied_score) tt 3 3 12 (12 + 1)
  = if Py.Qltb 0 1
    then mc_loop_final (Examples.mcl_with Examples.tied_score) tt 3 (tenth 12)
    else mc_loop_final (Examples.mcl_with Examples.tied_score) tt 0 0%Q.
Proof.
  apply (markov_grand_loop_single (Examples.mcl_with Examples.tied_score) tt 3 12 1%Q).
  reflexivity.
Defined.

End MarkovSingle.

(** ** Grouping a labeling *)

Section PostProcessFacts.

Import Reference Spectral SpectralReference.

Lemma index_pos_lt len idx p :
  Py.index_pos len idx = Some p -> (p < len)%nat.
Proof.
  unfold Py.index_pos.
  destruct (Z.leb_spec 0 idx), (Z.ltb_spec idx (Z.of_nat len)); cbn [andb].
  all: try (intros [= <-]; lia).
  all: destruct (Z.leb_spec (- Z.of_nat len) idx), (Z.ltb_spec idx 0); cbn [andb];
    try discriminate; intros [= <-]; lia.
Qed.

Lemma index_pos_wrap len idx :
  - Z.of_nat len <= idx < Z.of_nat len ->
  exists p, Py.index_pos len idx = Some p
            /\ (p < len)%nat
            /\ (Z.of_nat p = idx \/ Z.of_nat p = idx + Z.of_nat len).
Proof.
  intros H. unfold Py.index_pos.
  destruct (Z.leb_spec 0 idx), (Z.ltb_spec idx (Z.of_nat len)); cbn [andb];
    try lia.
  - exists (Z.to_nat idx). repeat split; lia.
  - destruct (Z.leb_spec (- Z.of_nat len) idx), (Z.ltb_spec idx 0); cbn [andb];
      try lia.
    exists (Z.to_nat (idx + Z.of_nat len)). repeat split; lia.
Qed.

Lemma index_pos_out len idx :
  idx < - Z.of_nat len \/ Z.of_nat len <= idx -> Py.index_pos len idx = None.
Proof.
  intros H. unfold Py.index_pos.
  destruct (Z.leb_spec 0 idx), (Z.ltb_spec idx (Z.of_nat len)); cbn [andb];
    try lia.
  all: destruct (Z.leb_spec (- Z.of_nat len) idx), (Z.ltb_spec idx 0); cbn [andb];
    try lia; reflexivity.
Qed.

(** Whenever the grouping loop ends, it has kept the number of clusters
    and added each key it visited to one of them. *)
Lemma post_process_loop_ends (d : Py.dict Z) (ks : list Z) :
  forall cl cl' : list (list Z),
  Py.for_each ks (fun clusters j =>
                    lab <- Py.dict_get d j ;; Py.append_at clusters lab j) cl
  = Some cl' ->
  length cl' = length cl /\ Permutation (concat cl') (concat cl ++ ks).
Proof.
  induction ks as [|j ks IH]; intros cl cl' H.
  - cbn in H. injection H as <-. rewrite app_nil_r. auto.
  - cbn [Py.for_each] in H.
    destruct (Py.dict_get d j) as [lab|]; [|discriminate].
    cbn [bind Monad_option] in H. unfold Py.append_at in H.
    destruct (Py.index_pos (length cl) lab) as [p|] eqn:Ep; [|discriminate].
    cbn [bind Monad_option ret] in H.
    apply IH in H as [Hlen Hperm]. rewrite update_at_length in Hlen.
    split; [exact Hlen|].
    rewrite Hperm. change (j :: ks) with ([j] ++ ks). rewrite app_assoc.
    apply Permutation_app_tail. apply update_at_concat.
    now apply index_pos_lt in Ep.
Qed.

Lemma clusters_start (n : Z) :
  length (map (fun _ : Z => @nil Z) (Py.range 0 n)) = Z.to_nat n
  /\ concat (map (fun _ : Z => @nil Z) (Py.range 0 n)) = [].
Proof.
  split.
  - rewrite length_map, range_length. f_equal. lia.
  - induction (Py.range 0 n); cbn; auto.
Qed.

Lemma post_process_ends (n : Z) (d : Py.dict Z) (cl : list (list Z)) :
  spectral_post_process n d = Some cl ->
  length cl = Z.to_nat n /\ Permutation (concat cl) (Py.keys d).
Proof.
  unfold spectral_post_process. intros H.
  apply post_process_loop_ends in H as [Hlen Hperm].
  destruct (clusters_start n) as [Hl0 Hc0].
  rewrite Hl0 in Hlen. rewrite Hc0 in Hperm. auto.
Qed.

(** X7. Whenever [spectral_post_process] returns, it returns [n] clusters
    that together hold every key of the labeling exactly as often as the
    labeling has it; with distinct keys the clusters are pairwise
    disjoint and cover the keys. *)
Theorem post_process_hard_partition (n : Z) (d : Py.dict Z) (cl : list (list Z)) :
  spectral_post_process n d = Some cl ->
  length cl = Z.to_nat n
  /\ Permutation (concat cl) (Py.keys d)
  /\ (NoDup (Py.keys d) -> partitions cl (Py.keys d)).
Proof.
  intros H. apply post_process_ends in H as [Hlen Hperm].
  split; [exact Hlen|]. split; [exact Hperm|].
  intros Hnd. split.
  - eapply Permutation_NoDup; [symmetry; exact Hperm | exact Hnd].
  - intros v. split; intros Hv.
    + eapply Permutation_in; [exact Hperm | exact Hv].
    + eapply Permutation_in; [symmetry; exact Hperm | exact Hv].
Qed.

Lemma update_at_map_range {B} (F : Z -> B) (g : B -> B) (b : Z) (p : nat) :
  forall a,
  Py.update_at (map F (Py.range a b)) p g
  = map (fun c => if c =? a + Z.of_nat p then g (F c) else F c) (Py.range a b).
Proof.
  induction p as [|p IH]; intros a.
  - destruct (Z.lt_ge_cases a b) as [Hlt | Hge].
    + rewrite range_cons by exact Hlt. cbn [map Py.update_at].
      replace (a + Z.of_nat 0) with a by lia. rewrite Z.eqb_refl. f_equal.
      apply map_ext_in. intros c Hc. apply range_In in Hc.
      destruct (Z.eqb_spec c a); [lia | reflexivity].
    + now rewrite range_empty by lia.
  - destruct (Z.lt_ge_cases a b) as [Hlt | Hge].
    + rewrite range_cons by exact Hlt. cbn [map Py.update_at].
      destruct (Z.eqb_spec a (a + Z.of_nat (S p))); [lia|]. f_equal.
      rewrite IH. apply map_ext. intros c.
      now replace (a + 1 + Z.of_nat p) with (a + Z.of_nat (S p)) by lia.
    + now rewrite range_empty by lia.
Qed.

Lemma post_process_members_loop (n : Z) (d : Py.dict Z) (ks2 : list Z) :
  forall ks1 : list Z,
  (forall j, In j ks2 ->
     exists lab, Py.dict_get d j = Some lab /\ - n <= lab < n) ->
  Py.for_each ks2 (fun clusters j =>
                     lab <- Py.dict_get d j ;; Py.append_at clusters lab j)
    (map (fun c => filter (fun j => match Py.dict_get d j with
                                    | Some lab => (lab =? c) || (lab =? c - n)
                                    | None => false
                                    end) ks1) (Py.range 0 n))
  = Some (map (fun c => filter (fun j => match Py.dict_get d j with
                                         | Some lab => (lab =? c) || (lab =? c - n)
                                         | None => false
                                         end) (ks1 ++ ks2)) (Py.range 0 n)).
Proof.
  induction ks2 as [|j ks2 IH]; intros ks1 H.
  - cbn. now rewrite app_nil_r.
  - destruct (H j (or_introl eq_refl)) as (lab & Hget & Hlab).
    cbn [Py.for_each]. rewrite Hget. cbn [bind Monad_option].
    unfold Py.append_at. rewrite length_map, range_length.
    destruct (index_pos_wrap (Z.to_nat (n - 0)) lab) as (p & Hp & Hlt & Hval);
      [lia|].
    rewrite Hp. cbn [bind Monad_option ret].
    rewrite update_at_map_range.
    replace (ks1 ++ j :: ks2) with ((ks1 ++ [j]) ++ ks2)
      by now rewrite <- app_assoc.
    rewrite <- IH by (intros j' Hj'; apply H; now right).
    f_equal. apply map_ext_in. intros c Hc. apply range_In in Hc.
    rewrite filter_app. cbn [filter]. rewrite Hget.
    destruct (Z.eqb_spec c (0 + Z.of_nat p)) as [-> | Hne].
    + assert (E : (lab =? 0 + Z.of_nat p) || (lab =? 0 + Z.of_nat p - n) = true).
      { apply orb_true_iff. rewrite !Z.eqb_eq. lia. }
      now rewrite E.
    + assert (E : (lab =? c) || (lab =? c - n) = false).
      { apply orb_false_iff. rewrite !Z.eqb_neq. lia. }
      rewrite E. now rewrite app_nil_r.
Qed.

(** X8. With every label in [-n, n), [spectral_post_process] returns, for
    c = 0, ..., n-1, the keys whose label is c or c - n (a negative label
    counts from the last cluster), each cluster in the iteration order of
    the labeling. *)
Theorem post_process_clusters (n : Z) (d : Py.dict Z) :
  (forall j lab, In j (Py.keys d) -> Py.dict_get d j = Some lab -> - n <= lab < n) ->
  spectral_post_process n d = Some (map (members n d) (Py.range 0 n)).
Proof.
  intros H. unfold spectral_post_process, members.
  assert (L := post_process_members_loop n d (Py.keys d) []).
  cbn [filter app] in L. apply L.
  intros j Hj. destruct (dict_get_key d j Hj) as (lab & Hget & _).
  exists lab. split; [exact Hget | now apply (H j)].
Qed.

Lemma post_process_loop_raises (d : Py.dict Z) (N : nat) (j lab : Z) (ks : list Z) :
  In j ks -> Py.dict_get d j = Some lab -> Py.index_pos N lab = None ->
  forall cl : list (list Z), length cl = N ->
  Py.for_each ks (fun clusters j =>
                    lab <- Py.dict_get d j ;; Py.append_at clusters lab j) cl
  = None.
Proof.
  intros Hin Hget Hidx. induction ks as [|k ks IH]; intros cl Hlen; [destruct Hin|].
  cbn [Py.for_each].
  destruct (Py.dict_get d k) as [lab'|] eqn:Ek; [|reflexivity].
  cbn [bind Monad_option]. unfold Py.append_at.
  destruct (Py.index_pos (length cl) lab') as [p|] eqn:Ep; [|reflexivity].
  cbn [bind Monad_option ret].
  destruct Hin as [-> | Hin].
  - exfalso. rewrite Hget in Ek. injection Ek as <-. rewrite Hlen in Ep. congruence.
  - apply IH; [exact Hin|]. now rewrite update_at_length.
Qed.

(** X9. A single key whose label lies outside [-n, n) makes
    [spectral_post_process] raise, whatever the other labels are. *)
Theorem post_process_label_out_of_range (n : Z) (d : Py.dict Z) (j lab : Z) :
  In j (Py.keys d) -> Py.dict_get d j = Some lab ->
  lab < - n \/ n <= lab ->
  spectral_post_process n d = None.
Proof.
  intros Hin Hget Hout. unfold spectral_post_process.
  apply (post_process_loop_raises d (Z.to_nat n) j lab); auto.
  - apply index_pos_out. lia.
  - apply clusters_start.
Qed.

End PostProcessFacts.

(** ** Labelings by position *)

Section LabelingFacts.

Import Reference Spectral SpectralReference.

Lemma NoDup_keys_zip (r : list Z) (labels : list Z) :
  NoDup r -> NoDup (map fst (Py.zip r labels)).
Proof.
  unfold Py.zip. intros H. revert labels.
  induction H as [|x r Hx Hr IH]; intros [|l labels]; cbn; try constructor.
  - intros Hin. apply Hx. apply in_map_iff in Hin as ([a b] & <- & Hab).
    now apply in_combine_l in Hab.
  - apply IH.
Qed.

Lemma labeling_is_zip (N : Z) (labels : list Z) :
  Py.dict_of (Py.zip (Py.range 1 (N + 1)) labels)
  = Py.zip (Py.range 1 (N + 1)) labels.
Proof. apply dict_of_distinct, NoDup_keys_zip, range_NoDup. Qed.

Lemma dict_get_zip_range (labels : list Z) (j : Z) :
  forall a b,
  Py.dict_get (Py.zip (Py.range a b) labels) j
  = if (a <=? j) && (j <? a + Z.min (b - a) (Z.of_nat (length labels)))
    then nth_error labels (Z.to_nat (j - a))
    else None.
Proof.
  unfold Py.zip. induction labels as [|l labels IH]; intros a b.
  - rewrite combine_nil. cbn [Py.dict_get length].
    destruct (Z.leb_spec a j), (Z.ltb_spec j (a + Z.min (b - a) (Z.of_nat 0)));
      cbn [andb]; try reflexivity. lia.
  - destruct (Z.lt_ge_cases a b) as [Hlt | Hge].
    + rewrite range_cons by exact Hlt. cbn [combine Py.dict_get].
      destruct (Z.eqb_spec j a) as [-> | Hne].
      * destruct (Z.leb_spec a a); [|lia].
        destruct (Z.ltb_spec a (a + Z.min (b - a) (Z.of_nat (length (l :: labels)))));
          cbn [andb length] in *; [|lia].
        now replace (Z.to_nat (a - a)) with O by lia.
      * rewrite IH. cbn [length].
        destruct (Z.leb_spec (a + 1) j), (Z.leb_spec a j); try lia; cbn [andb];
          [|reflexivity].
        destruct (Z.ltb_spec j (a + 1 + Z.min (b - (a + 1)) (Z.of_nat (length labels)))),
                 (Z.ltb_spec j (a + Z.min (b - a) (Z.of_nat (S (length labels)))));
          try lia; [|reflexivity].
        replace (Z.to_nat (j - a)) with (S (Z.to_nat (j - (a + 1)))) by lia.
        reflexivity.
    + rewrite range_empty by lia. cbn [combine Py.dict_get].
      destruct (Z.leb_spec a j),
               (Z.ltb_spec j (a + Z.min (b - a) (Z.of_nat (length (l :: labels)))));
        cbn [andb]; try reflexivity. lia.
Qed.

Lemma labeling_lookup (N : Z) (labels : list Z) (j : Z) :
  0 <= N ->
  Py.dict_get (Py.dict_of (Py.zip (Py.range 1 (N + 1)) labels)) j
  = if (1 <=? j) && (j <=? Z.min N (Z.of_nat (length labels)))
    then nth_error labels (Z.to_nat (j - 1))
    else None.
Proof.
  intros HN. rewrite labeling_is_zip, dict_get_zip_range.
  replace (N + 1 - 1) with N by lia.
  destruct (Z.leb_spec 1 j); cbn [andb]; [|reflexivity].
  destruct (Z.ltb_spec j (1 + Z.min N (Z.of_nat (length labels)))),
           (Z.leb_spec j (Z.min N (Z.of_nat (length labels)))); try lia; reflexivity.
Qed.

Lemma labeling_keys_in_range (N : Z) (labels : list Z) (j : Z) :
  In j (Py.keys (Py.dict_of (Py.zip (Py.range 1 (N + 1)) labels))) -> 1 <= j <= N.
Proof.
  rewrite labeling_is_zip. unfold Py.keys, Py.zip. intros H.
  apply in_map_iff in H as ([a b] & <- & Hab).
  apply in_combine_l, range_In in Hab. cbn. lia.
Qed.

Variable np : Backend.

(** X10. The labelings of [spectral] and [spectral_2] store the label of
    the j-th node in iteration order (counted from 1) under the key j:
    looking up j gives the (j-1)-th label for 1 <= j <= min(|V|, number
    of labels), and nothing for any other j, so a node identifier is
    looked up as if it were a position. *)
Theorem spectral_lookup_by_position (G : nx.Graph) (n : Z) emb :
  spectral_embedding np G n = Some emb ->
  (forall labels s s', KMeans np n emb s = Some (labels, s') ->
     exists d, spectral np G n s = Some (d, s')
       /\ forall j, Py.dict_get d j
            = if (1 <=? j)
                 && (j <=? Z.min (nx.number_of_nodes G) (Z.of_nat (length labels)))
              then nth_error labels (Z.to_nat (j - 1)) else None)
  /\ (forall labels s s', KMedoids np n emb s = Some (labels, s') ->
        exists d, spectral_2 np G n s = Some (d, s')
          /\ forall j, Py.dict_get d j
               = if (1 <=? j)
                    && (j <=? Z.min (nx.number_of_nodes G) (Z.of_nat (length labels)))
                 then nth_error labels (Z.to_nat (j - 1)) else None).
Proof.
  intros Hemb. split; intros labels s s' Hl; eexists; split.
  - unfold spectral. rewrite Hemb. cbn [bind Monad_option]. rewrite Hl. reflexivity.
  - intros j. apply labeling_lookup. unfold nx.number_of_nodes. lia.
  - unfold spectral_2. rewrite Hemb. cbn [bind Monad_option]. rewrite Hl. reflexivity.
  - intros j. apply labeling_lookup. unfold nx.number_of_nodes. lia.
Qed.

Lemma spectral_keys_in_range (G : nx.Graph) (n : Z) (d : Py.dict Z)
    (s s' : rng np) (j : Z) :
  spectral np G n s = Some (d, s') \/ spectral_2 np G n s = Some (d, s') ->
  In j (Py.keys d) -> 1 <= j <= nx.number_of_nodes G.
Proof.
  unfold spectral, spectral_2. intros [H | H];
    destruct (spectral_embedding np G n) as [emb|]; try discriminate;
    cbn [bind Monad_option] in H.
  - destruct (KMeans np n emb s) as [[labels s1]|]; [|discriminate].
    injection H as <- _. apply labeling_keys_in_range.
  - destruct (KMedoids np n emb s) as [[labels s1]|]; [|discriminate].
    injection H as <- _. apply labeling_keys_in_range.
Qed.

(** X11. Every node of every community that [separate_communities]
    builds from the clusters of a spectral labeling is a node of the
    graph whose identifier lies between 1 and |V|: a node 0, or any node
    numbered above |V|, is in no community. *)
Theorem spectral_communities_ids (G : nx.Graph) (n : Z) (d : Py.dict Z)
    (s s' : rng np) (cl : list (list Z)) :
  spectral np G n s = Some (d, s') \/ spectral_2 np G n s = Some (d, s') ->
  spectral_post_process n d = Some cl ->
  forall sg v, In sg (Community.separate_communities G cl) ->
               In v (nx.nodes sg) ->
               1 <= v <= nx.number_of_nodes G /\ In v (nx.nodes G).
Proof.
  intros Hd Hcl sg v Hsg Hv.
  rewrite separate_communities_filter_map in Hsg.
  apply in_map_iff in Hsg as (c & <- & Hc). apply filter_In in Hc as [Hc _].
  unfold nx.subgraph in Hv. cbn [nx.nodes] in Hv.
  apply filter_In in Hv as [HvG Hkeep]. apply andb_true_iff in Hkeep as [Hvc _].
  apply mem_In in Hvc. split; [|exact HvG].
  apply (spectral_keys_in_range G n d s s' v Hd).
  apply post_process_ends in Hcl as [_ Hperm].
  eapply Permutation_in; [exact Hperm|].
  apply in_concat. exists c. auto.
Qed.

End LabelingFacts.

(** ** The balance score *)

Section BalanceFacts.

Import Spectral SpectralReference.

Lemma square_nonneg (a : Q) : (0 <= a * a)%Q.
Proof. nra. Qed.

Lemma squares_nonneg (m : Q) (data : list Z) :
  (0 <= fold_right (fun (x : Z) (acc : Q) =>
                      (inject_Z x - m) * (inject_Z x - m) + acc) 0 data)%Q.
Proof.
  induction data as [|x data IH]; cbn [fold_right]; [apply Qle_refl|].
  pose proof (square_nonneg (inject_Z x - m)) as H.
  lra.
Qed.

Lemma squares_zero (m : Q) (data : list Z) :
  (fold_right (fun (x : Z) (acc : Q) =>
                 (inject_Z x - m) * (inject_Z x - m) + acc) 0 data == 0)%Q
  <-> (forall x, In x data -> (inject_Z x == m)%Q).
Proof.
  induction data as [|x data IH]; cbn [fold_right].
  - split; [intros _ y [] | reflexivity].
  - pose proof (squares_nonneg m data) as Hn.
    pose proof (square_nonneg (inject_Z x - m)) as Hs.
    split.
    + intros H y [<- | Hy].
      * assert (E : ((inject_Z x - m) * (inject_Z x - m) == 0)%Q) by lra.
        apply Qmult_integral in E. destruct E as [E | E]; lra.
      * apply IH; [lra | exact Hy].
    + intros H.
      assert (E1 : (inject_Z x == m)%Q) by (apply H; now left).
      assert (E2 : (fold_right (fun (x : Z) (acc : Q) =>
                      (inject_Z x - m) * (inject_Z x - m) + acc) 0 data == 0)%Q)
        by (apply IH; intros y Hy; apply H; now right).
      rewrite E2, E1. ring.
Qed.

Lemma sum_constant (x0 : Z) (data : list Z) :
  (forall x, In x data -> x = x0) ->
  fold_right Z.add 0 data = Z.of_nat (length data) * x0.
Proof.
  induction data as [|x data IH]; intros H; [reflexivity|].
  cbn [fold_right length]. rewrite IH by (intros y Hy; apply H; now right).
  rewrite (H x) by now left. lia.
Qed.

Lemma stdev_zero_iff (data : list Z) :
  (2 <= length data)%nat ->
  exists s, stdev data = Some s
            /\ (0 <= radicand s)%Q
            /\ ((radicand s == 0)%Q <-> forall x y, In x data -> In y data -> x = y).
Proof.
  intros Hlen. unfold stdev.
  destruct (Z.ltb_spec (Z.of_nat (length data)) 2) as [Hlt | Hge]; [lia|].
  set (n := Z.of_nat (length data)) in *.
  set (m := (inject_Z (fold_right Z.add 0%Z data) / inject_Z n)%Q).
  set (ss := fold_right (fun (x : Z) (acc : Q) =>
                           (inject_Z x - m) * (inject_Z x - m) + acc)%Q 0%Q data).
  assert (Hpos : (0 < inject_Z (n - 1))%Q)
    by (change 0%Q with (inject_Z 0); rewrite <- Zlt_Qlt; lia).
  assert (Hss : (0 <= ss)%Q) by apply squares_nonneg.
  assert (Hdiv : (0 <= ss / inject_Z (n - 1))%Q).
  { apply Qle_shift_div_l; [exact Hpos | lra]. }
  eexists. split; [reflexivity|]. cbn [radicand]. rewrite Qred_correct.
  split; [exact Hdiv|].
  assert (Hz : (ss / inject_Z (n - 1) == 0 <-> ss == 0)%Q).
  { split; intros H.
    - assert (E : (ss == ss / inject_Z (n - 1) * inject_Z (n - 1))%Q)
        by (field; lra).
      rewrite E, H. ring.
    - rewrite H. field. lra. }
  rewrite Hz. unfold ss. rewrite squares_zero. split.
  - intros H x y Hx Hy. apply inject_Z_injective.
    rewrite (H x Hx), (H y Hy). reflexivity.
  - intros H x Hx.
    assert (Hsum : fold_right Z.add 0 data = n * x).
    { apply sum_constant. intros y Hy. now apply H. }
    unfold m. rewrite Hsum, inject_Z_mult. field.
    assert (Hn : (0 < inject_Z n)%Q)
      by (change 0%Q with (inject_Z 0); rewrite <- Zlt_Qlt; lia).
    lra.
Qed.

(** X12. With at least two clusters the balance score is defined, it is
    the root of a non-negative number, and it is 0 exactly when all
    clusters have the same size. *)
Theorem balance_score_zero_iff_equal_sizes (clust : list (list Z)) :
  (2 <= length clust)%nat ->
  exists s, balance_score_clusters clust = Some s
            /\ (0 <= radicand s)%Q
            /\ ((radicand s == 0)%Q
                <-> forall a b, In a clust -> In b clust -> length a = length b).
Proof.
  intros Hlen. unfold balance_score_clusters.
  destruct (stdev_zero_iff (map (fun a => Z.of_nat (length a)) clust))
    as (s & Hs & Hpos & Hiff); [now rewrite length_map|].
  exists s. split; [exact Hs|]. split; [exact Hpos|].
  rewrite Hiff. split.
  - intros H a b Ha Hb. apply Nat2Z.inj.
    apply H; apply in_map_iff; eexists; split; try reflexivity; assumption.
  - intros H x y Hx Hy.
    apply in_map_iff in Hx as (a & <- & Ha). apply in_map_iff in Hy as (b & <- & Hb).
    f_equal. now apply H.
Qed.

Lemma balance_score_needs_two (clust : list (list Z)) :
  (length clust < 2)%nat -> balance_score_clusters clust = None.
Proof.
  intros H. unfold balance_score_clusters, stdev. rewrite length_map.
  destruct (Z.ltb_spec (Z.of_nat (length clust)) 2); [reflexivity | lia].
Qed.

End BalanceFacts.

(** ** The spectral search over a range of k *)

Section SpectralLoopFacts.

Import Spectral SpectralReference.

Variable np : Backend.
Variable G : nx.Graph.

Lemma grand_step_below_two (r : Z) (st : list Z * list score * score * rng np) :
  r < 2 -> grand_step np G st r = None.
Proof.
  intros Hr. destruct st as [[[km ds] m] s]. unfold grand_step.
  destruct (spectral_2 np G r s) as [[pre s1]|]; [|reflexivity].
  cbn [bind Monad_option].
  destruct (spectral_post_process r pre) as [fin|] eqn:E; [|reflexivity].
  cbn [bind Monad_option].
  apply post_process_ends in E as [Hlen _].
  rewrite balance_score_needs_two; [reflexivity | lia].
Qed.

(** X13. A range of k that contains a value below 2 makes
    [spectral_grand_loop] raise, whatever the clustering backend returns:
    fewer than two clusters have no standard deviation. *)
Theorem spectral_grand_loop_needs_k_2 (k_start k_end k : Z) (s : rng np) :
  k_start <= k <= k_end -> k < 2 ->
  spectral_grand_loop np G k_start k_end s = None.
Proof.
  intros Hk Hlt. unfold spectral_grand_loop.
  rewrite (for_each_fails _ _ k); [reflexivity | apply range_In; lia |].
  intros st. now apply grand_step_below_two.
Qed.

Variable dev : Z -> score.
Variable st : Z -> rng np.

Lemma spectral_loop_run (b : Z) (m : nat) :
  forall a, Z.to_nat (b - a) = m ->
  (forall k, a <= k < b ->
     exists pre fin, spectral_2 np G k (st k) = Some (pre, st (k + 1))
                     /\ spectral_post_process k pre = Some fin
                     /\ balance_score_clusters fin = Some (dev k)) ->
  forall km ds mn,
  Py.for_each (Py.range a b) (grand_step np G) (km, ds, mn, st a)
  = Some (km ++ Py.range a b, ds ++ map dev (Py.range a b),
          fold_left (fun m d => if score_ltb d m then d else m)
                    (map dev (Py.range a b)) mn,
          st (Z.max a b)).
Proof.
  induction m as [|m IH]; intros a Hm H km ds mn.
  - rewrite range_empty by lia. cbn. rewrite !app_nil_r.
    now replace (Z.max a b) with a by lia.
  - rewrite range_cons by lia.
    destruct (H a ltac:(lia)) as (pre & fin & Hpre & Hfin & Hdev).
    cbn [Py.for_each]. unfold grand_step at 1.
    rewrite Hpre. cbn [bind Monad_option]. rewrite Hfin. cbn [bind Monad_option].
    rewrite Hdev. cbn [bind Monad_option ret].
    rewrite IH by (try lia; intros k Hk; apply H; lia).
    cbn [map fold_left]. rewrite <- !app_assoc. cbn [app].
    now replace (Z.max (a + 1) b) with (Z.max a b) by lia.
Qed.

Lemma least_score_spec (ds : list score) :
  forall m,
  let m' := fold_left (fun m d => if score_ltb d m then d else m) ds m in
  score_le m' m /\ (forall d, In d ds -> score_le m' d) /\ (m' = m \/ In m' ds).
Proof.
  unfold score_le. induction ds as [|d ds IH]; intros m; cbn [fold_left].
  - split; [apply Qle_refl|]. split; [intros d [] | now left].
  - destruct (IH (if score_ltb d m then d else m)) as (H1 & H2 & H3).
    unfold score_ltb in *.
    destruct (Py.Qltb (radicand d) (radicand m)) eqn:C.
    + apply Qltb_true in C. split; [|split].
      * eapply Qle_trans; [exact H1 | now apply Qlt_le_weak].
      * intros d' [<- | Hd']; auto.
      * right. destruct H3 as [-> | H3]; [now left | now right].
    + apply Qltb_false in C. split; [exact H1|]. split.
      * intros d' [<- | Hd']; auto. eapply Qle_trans; eauto.
      * destruct H3 as [H3 | H3]; [now left | right; now right].
Qed.

Lemma list_index_first (ds : list score) (x : score) :
  (exists d, In d ds /\ score_eqb d x = true) ->
  exists p d, list_index ds x = Some p
              /\ nth_error ds p = Some d
              /\ score_eqb d x = true
              /\ (forall q d', (q < p)%nat -> nth_error ds q = Some d' ->
                               score_eqb d' x = false).
Proof.
  induction ds as [|y ds IH]; intros (d & Hin & Hd); [destruct Hin|].
  cbn [list_index]. destruct (score_eqb y x) eqn:Ey.
  - exists O, y. repeat split; auto. intros q d' Hq. lia.
  - destruct IH as (p & d0 & Hp & Hn & He & Hfirst).
    { destruct Hin as [-> | Hin]; [congruence | eauto]. }
    exists (S p), d0. rewrite Hp. repeat split; auto.
    intros [|q] d' Hq Hq'; cbn in Hq'.
    + now injection Hq' as <-.
    + apply (Hfirst q d'); [lia | exact Hq'].
Qed.

Lemma list_index_absent (ds : list score) (x : score) :
  (forall d, In d ds -> score_eqb d x = false) -> list_index ds x = None.
Proof.
  induction ds as [|y ds IH]; intros H; [reflexivity|].
  cbn [list_index]. rewrite (H y) by now left.
  rewrite IH by (intros d Hd; apply H; now right). reflexivity.
Qed.

(** X14. When every trial of the range returns a balance score and some
    score is at most 99999, [spectral_grand_loop] returns the k-means
    clusters ([spectral], then [spectral_post_process]) at the first k of
    the range whose k-medoids balance score is minimal; that k-means run
    starts in the random state the trials have left. *)
Theorem spectral_grand_loop_first_minimum (k_start k_end : Z) :
  trial_scores np G dev st k_start k_end ->
  (exists k0, k_start <= k0 <= k_end /\ score_le (dev k0) (score_of_int 99999)) ->
  exists K,
    k_start <= K <= k_end
    /\ (forall k, k_start <= k <= k_end -> score_le (dev K) (dev k))
    /\ (forall k, k_start <= k < K -> score_lt (dev K) (dev k))
    /\ spectral_grand_loop np G k_start k_end (st k_start)
       = ('(p, s) <- spectral np G K (st (k_end + 1)) ;;
          clusters <- spectral_post_process K p ;;
          ret (clusters, s)).
Proof.
  intros Htrials (k0 & Hk0 & Hle0).
  unfold spectral_grand_loop.
  rewrite (spectral_loop_run (k_end + 1) (Z.to_nat (k_end + 1 - k_start)))
    by (try reflexivity; intros k Hk; apply Htrials; lia).
  cbn [bind Monad_option app].
  replace (Z.max k_start (k_end + 1)) with (k_end + 1) by lia.
  set (ks := Py.range k_start (k_end + 1)).
  set (m' := fold_left (fun m d => if score_ltb d m then d else m)
                       (map dev ks) (score_of_int 99999)).
  destruct (least_score_spec (map dev ks) (score_of_int 99999))
    as (Hm0 & Hall & Hwhere). fold m' in Hm0, Hall, Hwhere.
  assert (Hex : exists d, In d (map dev ks) /\ score_eqb d m' = true).
  { destruct Hwhere as [Heq | Hin].
    - exists (dev k0). split; [apply in_map, range_In; lia|].
      apply Qeq_bool_iff. apply Qle_antisym.
      + rewrite Heq. exact Hle0.
      + apply Hall. apply in_map, range_In. lia.
    - exists m'. split; [exact Hin | apply score_eqb_refl]. }
  destruct (list_index_first _ _ Hex) as (p & d & Hp & Hn & He & Hfirst).
  rewrite Hp. cbn [bind Monad_option].
  assert (Hlt : (p < Z.to_nat (k_end + 1 - k_start))%nat).
  { assert (H : (p < length (map dev ks))%nat)
      by (apply nth_error_Some; congruence).
    unfold ks in H. now rewrite length_map, range_length in H. }
  assert (HK : nth_error ks p = Some (k_start + Z.of_nat p))
    by now apply range_nth.
  rewrite HK. cbn [bind Monad_option].
  rewrite nth_error_map, HK in Hn. cbn in Hn. injection Hn as <-.
  apply Qeq_bool_iff in He.
  exists (k_start + Z.of_nat p). split; [lia|]. split; [|split; [|reflexivity]].
  - intros k Hk. unfold score_le. rewrite He.
    apply Hall. apply in_map, range_In. lia.
  - intros k Hk. unfold score_lt. rewrite He.
    assert (Hq : nth_error (map dev ks) (Z.to_nat (k - k_start)) = Some (dev k)).
    { rewrite nth_error_map. unfold ks. rewrite range_nth by lia.
      cbn. do 2 f_equal. lia. }
    specialize (Hfirst (Z.to_nat (k - k_start)) (dev k) ltac:(lia) Hq).
    assert (Hk' : score_le m' (dev k))
      by (apply Hall; apply in_map, range_In; lia).
    apply Qle_lteq in Hk' as [Hl | Heq]; [exact Hl|].
    exfalso. symmetry in Heq. apply Qeq_bool_iff in Heq.
    unfold score_eqb in Hfirst. congruence.
Qed.

(** X15. When every trial of the range returns a balance score above
    99999, and also when the range is empty, [spectral_grand_loop]
    raises: the initial value 99999 is then not among the scores. *)
Theorem spectral_grand_loop_above_initial (k_start k_end : Z) :
  trial_scores np G dev st k_start k_end ->
  (forall k, k_start <= k <= k_end -> score_lt (score_of_int 99999) (dev k)) ->
  spectral_grand_loop np G k_start k_end (st k_start) = None.
Proof.
  intros Htrials Habove. unfold spectral_grand_loop.
  rewrite (spectral_loop_run (k_end + 1) (Z.to_nat (k_end + 1 - k_start)))
    by (try reflexivity; intros k Hk; apply Htrials; lia).
  cbn [bind Monad_option app].
  set (ks := Py.range k_start (k_end + 1)).
  assert (Hall : forall d, In d (map dev ks) -> score_lt (score_of_int 99999) d).
  { intros d Hd. apply in_map_iff in Hd as (k & <- & Hk).
    apply Habove. apply range_In in Hk. lia. }
  assert (Hmin : fold_left (fun m d => if score_ltb d m then d else m)
                           (map dev ks) (score_of_int 99999)
                 = score_of_int 99999).
  { clear - Hall. induction (map dev ks) as [|d ds IH]; [reflexivity|].
    cbn [fold_left].
    assert (C : score_ltb d (score_of_int 99999) = false).
    { apply Qltb_false. apply Qlt_le_weak. apply Hall. now left. }
    rewrite C. apply IH. intros d' Hd'. apply Hall. now right. }
  rewrite Hmin, list_index_absent; [reflexivity|].
  intros d Hd. unfold score_eqb.
  destruct (Qeq_bool (radicand d) (radicand (score_of_int 99999))) eqn:E;
    [|reflexivity].
  apply Qeq_bool_iff in E. specialize (Hall d Hd). unfold score_lt in Hall.
  rewrite E in Hall. exfalso. now apply Qlt_irrefl in Hall.
Qed.

End SpectralLoopFacts.

Section SpectralMoreExamples.

Import Reference Spectral SpectralReference SpectralExamples RankingReference.

Lemma post_process_hard_partition_witness :
  length [[1; 3]; [2]] = Z.to_nat 2
  /\ Permutation (concat [[1; 3]; [2]]) (Py.keys [(1, 0); (2, 1); (3, 0)])
  /\ (NoDup (Py.keys [(1, 0); (2, 1); (3, 0)]) ->
      partitions [[1; 3]; [2]] (Py.keys [(1, 0); (2, 1); (3, 0)])).
Proof.
  apply (post_process_hard_partition 2 [(1, 0); (2, 1); (3, 0)] [[1; 3]; [2]]).
  reflexivity.
Defined.

Lemma post_process_clusters_witness :
  spectral_post_process 2 [(1, 0); (2, -1); (3, 1)]
  = Some (map (members 2 [(1, 0); (2, -1); (3, 1)]) (Py.range 0 2)).
Proof.
  apply (post_process_clusters 2 [(1, 0); (2, -1); (3, 1)]).
  intros j lab [<- | [<- | [<- | []]]] [= <-]; lia.
Defined.

Lemma post_process_label_out_of_range_witness :
  spectral_post_process 2 [(1, 0); (2, 5)] = None.
Proof.
  apply (post_process_label_out_of_range 2 [(1, 0); (2, 5)] 2 5).
  - simpl. tauto.
  - reflexivity.
  - lia.
Defined.

Lemma spectral_lookup_by_position_witness :
  exists d, spectral (backend_with [0; 0; 1] [0; 1; 1]) path3 2 0%nat = Some (d, 1%nat)
    /\ forall j, Py.dict_get d j
         = if (1 <=? j)
              && (j <=? Z.min (nx.number_of_nodes path3) (Z.of_nat (length [0; 0; 1])))
           then nth_error [0; 0; 1] (Z.to_nat (j - 1)) else None.
Proof.
  apply (proj1 (spectral_lookup_by_position (backend_with [0; 0; 1] [0; 1; 1])
                  path3 2 tt eq_refl) [0; 0; 1] 0%nat 1%nat).
  reflexivity.
Defined.

Lemma spectral_communities_ids_witness :
  1 <= 3 <= nx.number_of_nodes path5 /\ In 3 (nx.nodes path5).
Proof.
  apply (spectral_communities_ids (backend_with [0; 0; 0; 0; 0] [0; 0; 0; 0; 0])
           path5 2 [(1, 0); (2, 0); (3, 0); (4, 0); (5, 0)] 0%nat 1%nat
           [[1; 2; 3; 4; 5]; []]
           (or_introl eq_refl) eq_refl
           (nx.subgraph path5 [1; 2; 3; 4; 5]) 3).
  - simpl. left. reflexivity.
  - simpl. tauto.
Defined.

Lemma balance_score_zero_iff_equal_sizes_witness :
  exists s, balance_score_clusters [[1; 3]; [2; 4]] = Some s
            /\ (0 <= radicand s)%Q
            /\ ((radicand s == 0)%Q
                <-> forall a b, In a [[1; 3]; [2; 4]] -> In b [[1; 3]; [2; 4]] ->
                                length a = length b).
Proof.
  apply (balance_score_zero_iff_equal_sizes [[1; 3]; [2; 4]]).
  simpl. lia.
Defined.

Lemma spectral_grand_loop_needs_k_2_witness :
  spectral_grand_loop (backend_with [0; 0; 1; 1] [0; 1; 0; 1]) cycle4 1 3 0%nat = None.
Proof.
  apply (spectral_grand_loop_needs_k_2
           (backend_with [0; 0; 1; 1] [0; 1; 0; 1]) cycle4 1 3 1 0%nat); lia.
Defined.

Lemma spectral_grand_loop_first_minimum_witness :
  exists K,
    2 <= K <= 3
    /\ (forall k, 2 <= k <= 3 ->
          score_le (if K =? 2 then Sqrt 0 else Sqrt (4 # 3))
                   (if k =? 2 then Sqrt 0 else Sqrt (4 # 3)))
    /\ (forall k, 2 <= k < K ->
          score_lt (if K =? 2 then Sqrt 0 else Sqrt (4 # 3))
                   (if k =? 2 then Sqrt 0 else Sqrt (4 # 3)))
    /\ spectral_grand_loop (backend_with [0; 0; 1; 1] [0; 1; 0; 1]) cycle4 2 3 0%nat
       = ('(p, s) <- spectral (backend_with [0; 0; 1; 1] [0; 1; 0; 1]) cycle4 K 0%nat ;;
          clusters <- spectral_post_process K p ;;
          ret (clusters, s)).
Proof.
  apply (spectral_grand_loop_first_minimum
           (backend_with [0; 0; 1; 1] [0; 1; 0; 1]) cycle4
           (fun k => if k =? 2 then Sqrt 0 else Sqrt (4 # 3)) (fun _ => 0%nat) 2 3).
  - intros k Hk. assert (E : k = 2 \/ k = 3) by lia.
    destruct E as [-> | ->]; eexists; eexists; repeat split.
  - exists 2. split; [lia|]. unfold score_le. simpl. discriminate.
Defined.

Lemma spectral_grand_loop_above_initial_witness :
  spectral_grand_loop (backend_with [0; 0; 1; 1] [0; 1; 0; 1]) cycle4 3 2 0%nat = None.
Proof.
  apply (spectral_grand_loop_above_initial
           (backend_with [0; 0; 1; 1] [0; 1; 0; 1]) cycle4 (fun _ => Sqrt 0)
           (fun _ => 0%nat) 3 2).
  - intros k Hk. lia.
  - intros k Hk. lia.
Defined.

End SpectralMoreExamples.

(** ** More on the community filter *)

Section CommunityMore.

Import nx Community.

(** X16. Filtering a concatenation of cluster lists is the concatenation
    of the filtered lists: a cluster is kept or dropped on its own size
    alone. *)
Theorem separate_communities_app (G : Graph) (cs1 cs2 : list (list Z)) :
  separate_communities G (cs1 ++ cs2)
  = separate_communities G cs1 ++ separate_communities G cs2.
Proof.
  rewrite !separate_communities_filter_map, filter_app, map_app. reflexivity.
Qed.

(** X17. The number of communities is the number of clusters with more
    than 4 elements; in particular no cluster list yields more
    communities than it has clusters, and a list of clusters of at most 4
    elements yields none. *)
Theorem separate_communities_count (G : Graph) (cs : list (list Z)) :
  length (separate_communities G cs)
  = length (filter (fun c => (4 <? length c)%nat) cs)
  /\ (length (separate_communities G cs) <= length cs)%nat
  /\ ((forall c, In c cs -> (length c <= 4)%nat) -> separate_communities G cs = []).
Proof.
  rewrite separate_communities_filter_map, length_map.
  split; [reflexivity|]. split; [apply filter_length_le|].
  intros H. induction cs as [|c cs IH]; [reflexivity|].
  cbn [filter]. destruct (Nat.ltb_spec 4 (length c)) as [Hbig | _].
  - specialize (H c (or_introl eq_refl)). lia.
  - apply IH. intros c' Hc'. apply H. now right.
Qed.

End CommunityMore.

(** ** More on the rankers *)

Section RankingMore.

Import Reference RankingReference nx Ranking.

Variable eigenvector_centrality : DiGraph -> option (Py.dict Q).

(** X18. With a mode other than 1, 2 and 3,
    [create_list_of_local_influencers] reads no community and returns the
    empty list instead of raising. *)
Theorem unknown_mode_returns_nothing (communi : list Graph) (mode : Z) :
  mode <> 1 -> mode <> 2 -> mode <> 3 ->
  create_list_of_local_influencers eigenvector_centrality communi mode = Some [].
Proof.
  intros H1 H2 H3. unfold create_list_of_local_influencers.
  induction communi as [|G communi IH]; [reflexivity|].
  cbn [Py.for_each].
  destruct (Z.eqb_spec mode 1); [contradiction|].
  destruct (Z.eqb_spec mode 2); [contradiction|].
  destruct (Z.eqb_spec mode 3); [contradiction|].
  cbn [bind Monad_option ret]. exact IH.
Qed.

Lemma first_key_of_sorted (ctr : Py.dict Q) :
  match first_key (rev (Py.sorted_by_score ctr)) with
  | Some n => exists s, last_maximum ctr n s
  | None => ctr = []
  end.
Proof.
  destruct ctr as [|x ctr]; [reflexivity|].
  destruct (last_maximum_exists (x :: ctr)) as (n & s & Hmax); [discriminate|].
  rewrite (first_key_sorted _ n s Hmax). now exists s.
Qed.

(** What one round of the loop does, in terms of the mode's score
    mapping. *)
Lemma ranker_step (mode : Z) (G : Graph) (lst : list Z) :
  mode = 1 \/ mode = 2 \/ mode = 3 ->
  (l1 <- (if mode =? 1 then degree_centrality G lst else ret lst) ;;
   l2 <- (if mode =? 2 then close_centrality G l1 else ret l1) ;;
   if mode =? 3 then eigencentrality eigenvector_centrality G l2 else ret l2)
  = match scores eigenvector_centrality mode G with
    | Some ctr => k <- first_key (rev (Py.sorted_by_score ctr)) ;; ret (lst ++ [k])
    | None => None
    end.
Proof.
  unfold scores. intros [-> | [-> | ->]]; cbn [Z.eqb Pos.eqb].
  - unfold degree_centrality.
    destruct (first_key _); reflexivity.
  - cbn [bind Monad_option ret]. unfold close_centrality.
    destruct (first_key _); reflexivity.
  - cbn [bind Monad_option ret]. unfold eigencentrality.
    destruct (eigenvector_centrality (DiGraph_of G)); [|reflexivity].
    cbn [bind Monad_option]. destruct (first_key _); reflexivity.
Qed.

Lemma ranking_loop (mode : Z) (communi : list Graph) :
  mode = 1 \/ mode = 2 \/ mode = 3 ->
  forall lst,
  match Py.for_each communi
          (fun influencer_list com =>
             l1 <- (if mode =? 1 then degree_centrality com influencer_list
                    else ret influencer_list) ;;
             l2 <- (if mode =? 2 then close_centrality com l1 else ret l1) ;;
             if mode =? 3 then eigencentrality eigenvector_centrality com l2
             else ret l2) lst
  with
  | Some r =>
      exists picks, r = lst ++ picks
        /\ Forall2 (fun G n => exists ctr s,
                      scores eigenvector_centrality mode G = Some ctr
                      /\ last_maximum ctr n s) communi picks
  | None =>
      exists G, In G communi
        /\ (scores eigenvector_centrality mode G = None
            \/ scores eigenvector_centrality mode G = Some [])
  end.
Proof.
  intros Hmode. induction communi as [|G communi IH]; intros lst.
  - cbn. exists []. rewrite app_nil_r. split; [reflexivity | constructor].
  - cbn [Py.for_each]. rewrite (ranker_step mode G lst Hmode).
    destruct (scores eigenvector_centrality mode G) as [ctr|] eqn:Es.
    + pose proof (first_key_of_sorted ctr) as Hk.
      destruct (first_key (rev (Py.sorted_by_score ctr))) as [n|].
      * destruct Hk as (s & Hmax). cbn [bind Monad_option ret].
        specialize (IH (lst ++ [n])).
        destruct (Py.for_each communi _ (lst ++ [n])) as [r|].
        -- destruct IH as (picks & -> & HF). exists (n :: picks).
           rewrite <- app_assoc. split; [reflexivity|].
           constructor; [now exists ctr, s | exact HF].
        -- destruct IH as (G' & HG' & Hbad). exists G'. split; [now right | exact Hbad].
      * cbn [bind Monad_option]. exists G. split; [now left|].
        right. now rewrite Es, Hk.
    + exists G. split; [now left | now left].
Qed.

(** X19. In the modes 1, 2 and 3 [create_list_of_local_influencers]
    either returns one node per community, in order, each the last entry
    of maximal score of its community's score mapping, or it raises, and
    then some community has no score mapping or an empty one. *)
Theorem influencers_or_failure (mode : Z) (communi : list Graph) :
  mode = 1 \/ mode = 2 \/ mode = 3 ->
  match create_list_of_local_influencers eigenvector_centrality communi mode with
  | Some picks =>
      Forall2 (fun G n => exists ctr s,
                 scores eigenvector_centrality mode G = Some ctr
                 /\ last_maximum ctr n s) communi picks
  | None =>
      exists G, In G communi
        /\ (scores eigenvector_centrality mode G = None
            \/ scores eigenvector_centrality mode G = Some [])
  end.
Proof.
  intros Hmode. unfold create_list_of_local_influencers.
  pose proof (ranking_loop mode communi Hmode []) as H.
  destruct (Py.for_each communi _ []) as [r|]; [|exact H].
  destruct H as (picks & -> & HF). exact HF.
Qed.

Lemma keys_degree_centrality (G : Graph) :
  Py.keys (nx.degree_centrality G) = nodes G.
Proof.
  unfold Py.keys, nx.degree_centrality.
  destruct (number_of_nodes G <=? 1); rewrite map_map; cbn [fst]; apply map_id.
Qed.

Lemma keys_closeness_centrality (G : Graph) :
  Py.keys (nx.closeness_centrality G) = nodes G.
Proof.
  unfold Py.keys, nx.closeness_centrality. rewrite map_map. cbn [fst]. apply map_id.
Qed.

Lemma last_maximum_key (ctr : Py.dict Q) (n : Z) (s : Q) :
  last_maximum ctr n s -> In n (Py.keys ctr).
Proof.
  intros (l1 & l2 & -> & _). unfold Py.keys. rewrite map_app. cbn.
  apply in_or_app. right. now left.
Qed.

(** X20. In the degree mode and in the closeness mode
    [create_list_of_local_influencers] raises exactly when some community
    has no node; otherwise it returns one influencer per community, each
    a node of its community. *)
Theorem degree_closeness_influencers (mode : Z) (communi : list Graph) :
  mode = 1 \/ mode = 2 ->
  match create_list_of_local_influencers eigenvector_centrality communi mode with
  | Some picks =>
      (forall G, In G communi -> nodes G <> [])
      /\ Forall2 (fun G n => In n (nodes G)) communi picks
  | None => exists G, In G communi /\ nodes G = []
  end.
Proof.
  intros Hmode.
  assert (Hkeys : forall G ctr, scores eigenvector_centrality mode G = Some ctr ->
                                Py.keys ctr = nodes G).
  { intros G ctr. unfold scores. destruct Hmode as [-> | ->]; cbn [Z.eqb Pos.eqb];
      intros [= <-]; [apply keys_degree_centrality | apply keys_closeness_centrality]. }
  assert (Hmode3 : mode = 1 \/ mode = 2 \/ mode = 3) by tauto.
  unfold create_list_of_local_influencers.
  pose proof (ranking_loop mode communi Hmode3 []) as H.
  destruct (Py.for_each communi _ []) as [r|].
  - destruct H as (picks & -> & HF). cbn [app].
    assert (HF' : Forall2 (fun G n => In n (nodes G)) communi picks).
    { induction HF as [|G n communi picks (ctr & s & Hs & Hmax) _ IH];
        constructor; [|exact IH].
      rewrite <- (Hkeys G ctr Hs). now apply (last_maximum_key ctr n s). }
    split; [|exact HF'].
    intros G HG Hempty. clear - HF' HG Hempty.
    induction HF' as [|G' n communi picks Hn _ IH]; [destruct HG|].
    destruct HG as [-> | HG]; [rewrite Hempty in Hn; destruct Hn | now apply IH].
  - destruct H as (G & HG & Hbad). exists G. split; [exact HG|].
    destruct Hbad as [Hbad | Hbad].
    + unfold scores in Hbad.
      destruct Hmode as [-> | ->]; cbn [Z.eqb Pos.eqb] in Hbad; discriminate.
    + rewrite <- (Hkeys G [] Hbad). reflexivity.
Qed.

End RankingMore.

Section DegreeMode.

Import Reference RankingReference nx Ranking.

Variable eigenvector_centrality : DiGraph -> option (Py.dict Q).

Lemma degree_score_lt (N a b : Z) :
  1 < N -> a < b ->
  (Qred (inject_Z a / inject_Z (N - 1)) < Qred (inject_Z b / inject_Z (N - 1)))%Q.
Proof.
  intros HN Hab. apply Qred_lt. unfold Qdiv.
  apply Qmult_lt_compat_r.
  - apply Qinv_lt_0_compat. change 0%Q with (inject_Z 0).
    rewrite <- Zlt_Qlt. lia.
  - rewrite <- Zlt_Qlt. exact Hab.
Qed.

(** X21. In the degree mode a node whose degree is strictly larger than
    that of every other node of the community is the one selected,
    wherever it stands in the iteration order. *)
Theorem degree_mode_selects_highest_degree (G : Graph) (c : Z) :
  NoDup (nodes G) -> In c (nodes G) -> (2 <= length (nodes G))%nat ->
  (forall v, In v (nodes G) -> v <> c -> degree G v < degree G c) ->
  create_list_of_local_influencers eigenvector_centrality [G] 1 = Some [c].
Proof.
  intros Hnd Hc Hlen Hmax.
  set (N := number_of_nodes G).
  assert (HN : 1 < N) by (unfold N, number_of_nodes; lia).
  set (f := fun n => (n, Qred (inject_Z (degree G n) / inject_Z (N - 1)))).
  assert (Hctr : nx.degree_centrality G = map f (nodes G)).
  { unfold nx.degree_centrality. fold N.
    destruct (Z.leb_spec N 1); [lia | reflexivity]. }
  destruct (in_split c (nodes G) Hc) as (l1 & l2 & Hsplit).
  assert (Hother : forall v, In v l1 \/ In v l2 ->
            (snd (f v) < snd (f c))%Q).
  { intros v Hv. cbn [f snd]. apply degree_score_lt; [exact HN|].
    apply Hmax.
    - rewrite Hsplit. apply in_or_app. destruct Hv; [now left | right; now right].
    - intros ->. rewrite Hsplit in Hnd. apply NoDup_remove_2 in Hnd.
      apply Hnd. apply in_or_app. exact Hv. }
  assert (Hlast : last_maximum (nx.degree_centrality G) c (snd (f c))).
  { exists (map f l1), (map f l2). rewrite Hctr, Hsplit, map_app. cbn [map].
    split; [reflexivity|]. split.
    - intros x Hx. apply in_map_iff in Hx as (v & <- & Hv).
      apply Qlt_le_weak. apply Hother. now left.
    - intros x Hx. apply in_map_iff in Hx as (v & <- & Hv).
      apply Hother. now right. }
  unfold create_list_of_local_influencers. cbn [Py.for_each].
  rewrite (ranker_of_mode eigenvector_centrality 1 G _ c _ [] eq_refl Hlast).
  reflexivity.
Qed.

End DegreeMode.

Section RankingMoreExamples.

Import Reference RankingReference MoreExamples nx Ranking Community.

Lemma separate_communities_count_witness :
  separate_communities path5 [[1; 2]; [0; 1; 2; 3]] = [].
Proof.
  apply (proj2 (proj2 (separate_communities_count path5 [[1; 2]; [0; 1; 2; 3]]))).
  intros c [<- | [<- | []]]; simpl; lia.
Defined.

Lemma unknown_mode_returns_nothing_witness :
  create_list_of_local_influencers no_eigenvector [triangle; empty_graph] 4 = Some [].
Proof.
  apply (unknown_mode_returns_nothing no_eigenvector [triangle; empty_graph] 4); lia.
Defined.

Lemma influencers_or_failure_witness :
  match create_list_of_local_influencers single_eigenvector [single_node; triangle] 3 with
  | Some picks =>
      Forall2 (fun G n => exists ctr s,
                 scores single_eigenvector 3 G = Some ctr
                 /\ last_maximum ctr n s) [single_node; triangle] picks
  | None =>
      exists G, In G [single_node; triangle]
        /\ (scores single_eigenvector 3 G = None
            \/ scores single_eigenvector 3 G = Some [])
  end.
Proof.
  apply (influencers_or_failure single_eigenvector 3 [single_node; triangle]).
  right. right. reflexivity.
Defined.

Lemma degree_closeness_influencers_witness :
  match create_list_of_local_influencers no_eigenvector [triangle; star] 2 with
  | Some picks =>
      (forall G, In G [triangle; star] -> nodes G <> [])
      /\ Forall2 (fun G n => In n (nodes G)) [triangle; star] picks
  | None => exists G, In G [triangle; star] /\ nodes G = []
  end.
Proof.
  apply (degree_closeness_influencers no_eigenvector 2 [triangle; star]).
  right. reflexivity.
Defined.

Lemma degree_mode_selects_highest_degree_witness :
  create_list_of_local_influencers no_eigenvector [star] 1 = Some [0].
Proof.
  apply (degree_mode_selects_highest_degree no_eigenvector star 0).
  - repeat constructor; simpl; intros H; repeat destruct H as [H | H]; lia.
  - simpl. tauto.
  - simpl. lia.
  - intros v Hv Hne. simpl in Hv.
    repeat destruct Hv as [Hv | Hv]; subst; try contradiction; try reflexivity.
Defined.

End RankingMoreExamples.
